(** * A shallow embedding of [sw.py], the SSH address book

    The program keeps a JSON object mapping labels to SSH addresses in
    [~/.sw/keyring.json].  Every command is a plain function wrapped by the
    decorators [open_keyring], [validate_label] and [required_argument_count].
    This development models:
    - Python text as lists of Unicode code points ([list Z]);
    - files as lists of bytes ([list Z], each in [0, 255]);
    - Python values that JSON decoding can produce as [pyval], with dicts as
      association lists kept in insertion order (Python dicts are ordered);
    - the standard-library pieces the program relies on ([json.loads],
      [json.dumps], the strict UTF-8 codec, universal-newline reading), after
      CPython's C implementation;
    - the process as a state-and-exception monad over a world made of the
      home directory, the file system and the trace of printed lines and
      shell commands.  A Python exception keeps the effects done before it. *)

From Stdlib Require Import ZArith List String Ascii Bool Lia.
Import ListNotations.
Open Scope Z_scope.
Set Warnings "-register-all".

(** ** Text and Python values *)

Definition text := list Z.

(** [t "abc"] is the Python literal ['abc'] (ASCII code points). *)
Definition t (s : string) : text :=
  map (fun c => Z.of_N (N_of_ascii c)) (list_ascii_of_string s).

Fixpoint teqb (a b : text) : bool :=
  match a, b with
  | [], [] => true
  | x :: a', y :: b' => (x =? y) && teqb a' b'
  | _, _ => false
  end.

Fixpoint prefixb (p s : text) : bool :=
  match p, s with
  | [], _ => true
  | x :: p', y :: s' => (x =? y) && prefixb p' s'
  | _ :: _, [] => false
  end.

Fixpoint infixb (p s : text) : bool :=
  prefixb p s || match s with [] => false | _ :: s' => infixb p s' end.

(** Values produced by [json.loads].  A float is kept as the numeral it was
    read from ([float(lit)] in Python); none of the properties below looks
    inside floats. *)
Inductive pyval : Type :=
| PNone
| PBool (b : bool)
| PInt (z : Z)
| PFloat (lit : text)
| PStr (s : text)
| PList (xs : list pyval)
| PDict (d : list (text * pyval)).

Definition dict := list (text * pyval).

(** [d[k] = v]: an existing key keeps its place, a new key goes last. *)
Fixpoint dict_set (d : dict) (k : text) (v : pyval) : dict :=
  match d with
  | [] => [(k, v)]
  | (k', v') :: r => if teqb k k' then (k', v) :: r else (k', v') :: dict_set r k v
  end.

Fixpoint dict_get (d : dict) (k : text) : option pyval :=
  match d with
  | [] => None
  | (k', v') :: r => if teqb k k' then Some v' else dict_get r k
  end.

Fixpoint dict_remove (d : dict) (k : text) : dict :=
  match d with
  | [] => []
  | (k', v') :: r => if teqb k k' then r else (k', v') :: dict_remove r k
  end.

Definition dict_mem (d : dict) (k : text) : bool :=
  match dict_get d k with Some _ => true | None => false end.

(** ** Exceptions, events, world and the process monad *)

Inductive exn : Type :=
| TypeError (msg : string)
| KeyError
| AttributeError (msg : string)
| UnicodeDecodeError
| UnicodeEncodeError
| FileNotFoundError
| JSONDecodeError
| RecursionError
| ValueError
| IndexError.

Inductive event : Type :=
| EPrint (line : text)     (* print(...) *)
| EShell (cmd : text).     (* subprocess.run(cmd, shell=True) *)

Record world : Type := mkWorld {
  home : text;                       (* path.expanduser('~') *)
  fs : list (text * list Z);         (* path -> bytes *)
  out : list event                   (* what the process did, in order *)
}.

Inductive res (A : Type) : Type :=
| Ok (a : A)
| Raise (e : exn).
Arguments Ok {A} a.
Arguments Raise {A} e.

Definition M (A : Type) : Type := world -> res A * world.

Definition ret {A} (a : A) : M A := fun w => (Ok a, w).
Definition raise {A} (e : exn) : M A := fun w => (Raise e, w).
Definition bind {A B} (m : M A) (k : A -> M B) : M B :=
  fun w => match m w with
           | (Ok a, w') => k a w'
           | (Raise e, w') => (Raise e, w')
           end.
Definition lift {A} (r : res A) : M A := fun w => (r, w).

Notation "x <- m ;; k" := (bind m (fun x => k))
  (at level 61, m at next level, right associativity).

Definition emit (e : event) : M unit :=
  fun w => (Ok tt, mkWorld (home w) (fs w) (out w ++ [e])).
Definition print (line : text) : M unit := emit (EPrint line).
Definition shell (cmd : text) : M unit := emit (EShell cmd).

Fixpoint fs_lookup (f : list (text * list Z)) (p : text) : option (list Z) :=
  match f with
  | [] => None
  | (q, b) :: r => if teqb p q then Some b else fs_lookup r p
  end.

Fixpoint fs_write (f : list (text * list Z)) (p : text) (b : list Z) :=
  match f with
  | [] => [(p, b)]
  | (q, b') :: r => if teqb p q then (q, b) :: r else (q, b') :: fs_write r p b
  end.

Definition get_file (p : text) : M (option (list Z)) :=
  fun w => (Ok (fs_lookup (fs w) p), w).
Definition put_file (p : text) (b : list Z) : M unit :=
  fun w => (Ok tt, mkWorld (home w) (fs_write (fs w) p b) (out w)).
Definition get_home : M text := fun w => (Ok (home w), w).

(** ** The UTF-8 codec ([encoding='utf-8'], errors='strict') *)

Definition cont (b : Z) : bool := (128 <=? b) && (b <=? 191).

(** Decoding: the well-formed sequences of RFC 3629, as CPython accepts them. *)
Fixpoint utf8_decode (bs : list Z) : option text :=
  match bs with
  | [] => Some []
  | b0 :: r =>
    if b0 <? 128 then option_map (cons b0) (utf8_decode r)
    else if (194 <=? b0) && (b0 <=? 223) then
      match r with
      | b1 :: r1 =>
        if cont b1
        then option_map (cons ((b0 - 192) * 64 + (b1 - 128))) (utf8_decode r1)
        else None
      | [] => None
      end
    else if (224 <=? b0) && (b0 <=? 239) then
      match r with
      | b1 :: b2 :: r2 =>
        let lo := if b0 =? 224 then 160 else 128 in
        let hi := if b0 =? 237 then 159 else 191 in
        if (lo <=? b1) && (b1 <=? hi) && cont b2
        then option_map (cons (((b0 - 224) * 64 + (b1 - 128)) * 64 + (b2 - 128)))
                        (utf8_decode r2)
        else None
      | _ => None
      end
    else if (240 <=? b0) && (b0 <=? 244) then
      match r with
      | b1 :: b2 :: b3 :: r3 =>
        let lo := if b0 =? 240 then 144 else 128 in
        let hi := if b0 =? 244 then 143 else 191 in
        if (lo <=? b1) && (b1 <=? hi) && cont b2 && cont b3
        then option_map
               (cons ((((b0 - 240) * 64 + (b1 - 128)) * 64 + (b2 - 128)) * 64 + (b3 - 128)))
               (utf8_decode r3)
        else None
      | _ => None
      end
    else None
  end.

(** Encoding one code point; a surrogate cannot be encoded. *)
Definition utf8_encode_char (c : Z) : option (list Z) :=
  if c <? 128 then Some [c]
  else if c <? 2048 then Some [192 + c / 64; 128 + c mod 64]
  else if (55296 <=? c) && (c <=? 57343) then None
  else if c <? 65536 then Some [224 + c / 4096; 128 + (c / 64) mod 64; 128 + c mod 64]
  else Some [240 + c / 262144; 128 + (c / 4096) mod 64; 128 + (c / 64) mod 64; 128 + c mod 64].

Fixpoint utf8_encode (s : text) : option (list Z) :=
  match s with
  | [] => Some []
  | c :: r =>
    match utf8_encode_char c, utf8_encode r with
    | Some b, Some bs => Some (b ++ bs)
    | _, _ => None
    end
  end.

(** Reading in text mode with [newline=None]: "\r\n" and "\r" become "\n". *)
Fixpoint universal_newlines (s : text) : text :=
  match s with
  | [] => []
  | c :: r =>
    if c =? 13 then
      10 :: match r with
            | d :: r' => if d =? 10 then universal_newlines r' else universal_newlines r
            | [] => []
            end
    else c :: universal_newlines r
  end.

(** ** [json.loads] (CPython's [_json] scanner, [strict=True]) *)

Definition is_ws (c : Z) : bool := (c =? 32) || (c =? 9) || (c =? 10) || (c =? 13).
Definition is_digit (c : Z) : bool := (48 <=? c) && (c <=? 57).

Fixpoint skip_ws (s : text) : text :=
  match s with
  | c :: r => if is_ws c then skip_ws r else s
  | [] => []
  end.

Definition hex_val (c : Z) : option Z :=
  if (48 <=? c) && (c <=? 57) then Some (c - 48)
  else if (97 <=? c) && (c <=? 102) then Some (c - 87)
  else if (65 <=? c) && (c <=? 70) then Some (c - 55)
  else None.

(** Four hex digits after [\u] ([c <<= 4; c |= digit] for each). *)
Definition hex4 (a b c d : Z) : option Z :=
  match hex_val a, hex_val b, hex_val c, hex_val d with
  | Some x, Some y, Some z, Some u => Some (((x * 16 + y) * 16 + z) * 16 + u)
  | _, _, _, _ => None
  end.

Definition is_high (u : Z) : bool := (55296 <=? u) && (u <=? 56319).
Definition is_low (u : Z) : bool := (56320 <=? u) && (u <=? 57343).

(** [Py_UNICODE_JOIN_SURROGATES] *)
Definition join_surrogates (h l : Z) : Z :=
  Z.lor (Z.shiftl (Z.land h 1023) 10) (Z.land l 1023) + 65536.

Definition cons_res (x : Z) (o : option (text * text)) : option (text * text) :=
  match o with
  | Some (str, rem) => Some (x :: str, rem)
  | None => None
  end.

(** [scanstring]: [s] starts after the opening quote.  Returns the string
    and what follows the closing quote. *)
Fixpoint scanstring (s : text) : option (text * text) :=
  match s with
  | [] => None
  | c :: r =>
    if c =? 34 then Some ([], r)
    else if c =? 92 then
      match r with
      | [] => None
      | e :: r' =>
        if e =? 117 then
          match r' with
          | h1 :: h2 :: h3 :: h4 :: r'' =>
            match hex4 h1 h2 h3 h4 with
            | None => None
            | Some u =>
              if is_high u then
                match r'' with
                | b :: v :: g1 :: g2 :: g3 :: g4 :: r3 =>
                  if (b =? 92) && (v =? 117) then
                    match hex4 g1 g2 g3 g4 with
                    | None => None
                    | Some u2 =>
                      if is_low u2 then cons_res (join_surrogates u u2) (scanstring r3)
                      else cons_res u (scanstring r'')
                    end
                  else cons_res u (scanstring r'')
                | _ => cons_res u (scanstring r'')
                end
              else cons_res u (scanstring r'')
            end
          | _ => None
          end
        else if e =? 34 then cons_res 34 (scanstring r')
        else if e =? 92 then cons_res 92 (scanstring r')
        else if e =? 47 then cons_res 47 (scanstring r')
        else if e =? 98 then cons_res 8 (scanstring r')
        else if e =? 102 then cons_res 12 (scanstring r')
        else if e =? 110 then cons_res 10 (scanstring r')
        else if e =? 114 then cons_res 13 (scanstring r')
        else if e =? 116 then cons_res 9 (scanstring r')
        else None
      end
    else if c <? 32 then None
    else cons_res c (scanstring r)
  end.

Fixpoint span_digits (s : text) : text * text :=
  match s with
  | c :: r => if is_digit c then let '(ds, rest) := span_digits r in (c :: ds, rest)
              else ([], s)
  | [] => ([], [])
  end.

Definition digits_value (ds : text) : Z :=
  fold_left (fun acc d => acc * 10 + (d - 48)) ds 0.

(** [_match_number_unicode]: an optional minus, then [0] or a digit 1-9
    followed by digits, then optionally a dot and digits, then optionally
    [e] or [E], an optional sign and digits (backtracking before the [e]
    when no digit follows).  An int when there is neither fraction nor
    exponent, a float otherwise.  An int of more than
    [sys.get_int_max_str_digits()] digits makes [PyLong_FromString] raise
    [ValueError]. *)
Definition int_max_str_digits : nat := 4300.

Definition match_number (s : text) : res (pyval * text) :=
  let '(neg, s1) := match s with
                    | c :: r => if c =? 45 then (true, r) else (false, s)
                    | [] => (false, s)
                    end in
  let int_part :=
    match s1 with
    | c :: r =>
      if (49 <=? c) && (c <=? 57) then let '(ds, rest) := span_digits r in Some (c :: ds, rest)
      else if c =? 48 then Some ([c], r)
      else None
    | [] => None
    end in
  match int_part with
  | None => Raise JSONDecodeError
  | Some (ip, s2) =>
    let '(is_frac, s3) :=
      match s2 with
      | d :: ((e :: _) as r2) =>
        if (d =? 46) && is_digit e then (true, snd (span_digits r2)) else (false, s2)
      | _ => (false, s2)
      end in
    let '(is_exp, s4) :=
      match s3 with
      | e :: r3 =>
        if (e =? 101) || (e =? 69) then
          let r4 := match r3 with
                    | sg :: r' => if (sg =? 45) || (sg =? 43) then r' else r3
                    | [] => r3
                    end in
          match span_digits r4 with
          | ([], _) => (false, s3)
          | (_ :: _, r5) => (true, r5)
          end
        else (false, s3)
      | [] => (false, s3)
      end in
    if is_frac || is_exp then Ok (PFloat (firstn (List.length s - List.length s4) s), s4)
    else if Nat.ltb int_max_str_digits (List.length ip) then Raise ValueError
    else Ok (PInt ((if neg then -1 else 1) * digits_value ip), s4)
  end.

(** [scan_once], [_parse_object_unicode] and [_parse_array_unicode], with
    [depth] the number of objects and arrays already open.  Entering one more
    goes through [Py_EnterRecursiveCall], which raises [RecursionError] once
    the recursion limit is reached: with the default limit of 1000, and the
    seven levels already in use when [open_keyring_fn] calls [json.loads]
    ([<module>], [main], [open_keyring_fn], [loads], [decode], [raw_decode]
    and the call of the C scanner), [nesting_limit] containers can be open at
    once (CPython 3.11).  A failed match is [StopIteration] inside the
    scanner, reported by [raw_decode] as [JSONDecodeError].  The fuel bounds
    the number of calls; of two successive calls the first consumes at least
    one character, so the [2 * (n + 1)] units [json_loads] gives never run
    out. *)
Definition nesting_limit : nat := 993.

Fixpoint scan_once (fuel depth : nat) (s : text) {struct fuel} : res (pyval * text) :=
  match fuel with
  | O => Raise JSONDecodeError
  | S f =>
    match s with
    | [] => Raise JSONDecodeError
    | c :: r =>
      if c =? 34 then
        match scanstring r with Some (str, r') => Ok (PStr str, r') | None => Raise JSONDecodeError end
      else if c =? 123 then
        if Nat.ltb depth nesting_limit then
          match skip_ws r with
          | e :: r' => if e =? 125 then Ok (PDict [], r') else object_items f (S depth) (e :: r') []
          | [] => object_items f (S depth) [] []
          end
        else Raise RecursionError
      else if c =? 91 then
        if Nat.ltb depth nesting_limit then
          match skip_ws r with
          | e :: r' => if e =? 93 then Ok (PList [], r') else array_items f (S depth) (e :: r') []
          | [] => array_items f (S depth) [] []
          end
        else Raise RecursionError
      else if prefixb (t "null") s then Ok (PNone, skipn 4 s)
      else if prefixb (t "true") s then Ok (PBool true, skipn 4 s)
      else if prefixb (t "false") s then Ok (PBool false, skipn 5 s)
      else if prefixb (t "NaN") s then Ok (PFloat (t "NaN"), skipn 3 s)
      else if prefixb (t "Infinity") s then Ok (PFloat (t "Infinity"), skipn 8 s)
      else if prefixb (t "-Infinity") s then Ok (PFloat (t "-Infinity"), skipn 9 s)
      else match_number s
    end
  end
with object_items (fuel depth : nat) (s : text) (acc : dict) {struct fuel} : res (pyval * text) :=
  match fuel with
  | O => Raise JSONDecodeError
  | S f =>
    match s with
    | c :: r =>
      if c =? 34 then
        match scanstring r with
        | None => Raise JSONDecodeError
        | Some (key, r1) =>
          match skip_ws r1 with
          | d :: r2 =>
            if d =? 58 then
              match scan_once f depth (skip_ws r2) with
              | Raise e => Raise e
              | Ok (v, r3) =>
                match skip_ws r3 with
                | e :: r4 =>
                  if e =? 125 then Ok (PDict (dict_set acc key v), r4)
                  else if e =? 44 then object_items f depth (skip_ws r4) (dict_set acc key v)
                  else Raise JSONDecodeError
                | [] => Raise JSONDecodeError
                end
              end
            else Raise JSONDecodeError
          | [] => Raise JSONDecodeError
          end
        end
      else Raise JSONDecodeError
    | [] => Raise JSONDecodeError
    end
  end
with array_items (fuel depth : nat) (s : text) (acc : list pyval) {struct fuel} : res (pyval * text) :=
  match fuel with
  | O => Raise JSONDecodeError
  | S f =>
    match scan_once f depth s with
    | Raise e => Raise e
    | Ok (v, r) =>
      match skip_ws r with
      | e :: r' =>
        if e =? 93 then Ok (PList (acc ++ [v]), r')
        else if e =? 44 then array_items f depth (skip_ws r') (acc ++ [v])
        else Raise JSONDecodeError
      | [] => Raise JSONDecodeError
      end
    end
  end.

(** [json.loads(s)]: a leading BOM is refused, then one value surrounded by
    whitespace.  [RecursionError] and [ValueError] pass through. *)
Definition json_loads (s : text) : res pyval :=
  if prefixb [65279] s then Raise JSONDecodeError
  else match scan_once (2 * S (List.length s)) 0 (skip_ws s) with
       | Raise e => Raise e
       | Ok (v, r) => match skip_ws r with [] => Ok v | _ => Raise JSONDecodeError end
       end.

(** ** [json.dumps] (defaults: [ensure_ascii=True], separators [', '] and [': ']) *)

Definition hexdig (d : Z) : Z := if d <? 10 then 48 + d else 87 + d.

(** [\uXXXX] with lowercase digits ([Py_hexdigits[(c >> 12) & 0xf]], ...). *)
Definition u_escape (x : Z) : text :=
  [92; 117; hexdig (x / 4096 mod 16); hexdig (x / 256 mod 16);
   hexdig (x / 16 mod 16); hexdig (x mod 16)].

(** [ascii_escape_unichar], applied to the characters outside [S_CHAR]. *)
Definition ascii_escape_char (c : Z) : text :=
  if (32 <=? c) && (c <=? 126) && negb (c =? 92) && negb (c =? 34) then [c]
  else if c =? 92 then [92; 92]
  else if c =? 34 then [92; 34]
  else if c =? 8 then [92; 98]
  else if c =? 12 then [92; 102]
  else if c =? 10 then [92; 110]
  else if c =? 13 then [92; 114]
  else if c =? 9 then [92; 116]
  else if 65536 <=? c then u_escape (55232 + Z.shiftr c 10) ++ u_escape (56320 + Z.land c 1023)
  else u_escape c.

Definition encode_str (s : text) : text := [34] ++ flat_map ascii_escape_char s ++ [34].

Fixpoint join (sep : text) (l : list text) : text :=
  match l with
  | [] => []
  | [x] => x
  | x :: r => x ++ sep ++ join sep r
  end.

Fixpoint digits_aux (fuel : nat) (n : Z) (acc : text) : text :=
  match fuel with
  | O => acc
  | S f => let acc' := (48 + n mod 10) :: acc in
           if n <? 10 then acc' else digits_aux f (n / 10) acc'
  end.

(** [int.__repr__] *)
Definition int_repr (z : Z) : text :=
  (if z <? 0 then [45] else []) ++ digits_aux (Z.to_nat (Z.log2 (Z.abs z)) + 1) (Z.abs z) [].

(** A float prints as [float.__repr__]; this model prints the numeral it
    was read from (the same text for [NaN], [Infinity], [-Infinity]). *)
Fixpoint dumps (v : pyval) : text :=
  match v with
  | PNone => t "null"
  | PBool true => t "true"
  | PBool false => t "false"
  | PInt z => int_repr z
  | PFloat lit => lit
  | PStr s => encode_str s
  | PList xs => [91] ++ join (t ", ") (map dumps xs) ++ [93]
  | PDict d =>
    [123] ++ join (t ", ") (map (fun '(k, x) => encode_str k ++ t ": " ++ dumps x) d) ++ [125]
  end.

(** ** Python operations on values *)

Definition VERSION : text := t "0.2.0".

Fixpoint repr_str_body (q : Z) (s : text) : text :=
  match s with
  | [] => []
  | c :: r =>
    (if (c =? q) || (c =? 92) then [92; c]
     else if c =? 9 then [92; 116]
     else if c =? 10 then [92; 110]
     else if c =? 13 then [92; 114]
     else if (c <? 32) || (c =? 127) then [92; 120; hexdig (c / 16); hexdig (c mod 16)]
     else [c]) ++ repr_str_body q r
  end.

(** [repr] of a str: single quotes unless the text has a single quote and
    no double quote.  Characters from 128 on are kept as they are (Python
    escapes the ones its Unicode database calls non-printable). *)
Definition repr_str (s : text) : text :=
  let q := if existsb (Z.eqb 39) s && negb (existsb (Z.eqb 34) s) then 34 else 39 in
  [q] ++ repr_str_body q s ++ [q].

(** [repr(v)].  A float prints as the numeral it was read from, where
    Python prints [float.__repr__] ([1.5] for [1.50]); the properties that
    print a value are stated for str values only. *)
Fixpoint py_repr (v : pyval) : text :=
  match v with
  | PNone => t "None"
  | PBool true => t "True"
  | PBool false => t "False"
  | PInt z => int_repr z
  | PFloat lit => lit
  | PStr s => repr_str s
  | PList xs => [91] ++ join (t ", ") (map py_repr xs) ++ [93]
  | PDict d =>
    [123] ++ join (t ", ") (map (fun '(k, x) => repr_str k ++ t ": " ++ py_repr x) d) ++ [125]
  end.

(** [str(v)], as [format] uses it. *)
Definition py_str (v : pyval) : text :=
  match v with
  | PStr s => s
  | _ => py_repr v
  end.

Definition float_is_zero (lit : text) : bool :=
  let fix mantissa (s : text) : text :=
      match s with
      | [] => []
      | c :: r => if (c =? 101) || (c =? 69) then [] else c :: mantissa r
      end in
  forallb (fun c => (c =? 45) || (c =? 46) || (c =? 48)) (mantissa lit).

(** [bool(v)] *)
Definition truthy (v : pyval) : bool :=
  match v with
  | PNone => false
  | PBool b => b
  | PInt z => negb (z =? 0)
  | PFloat lit => negb (float_is_zero lit)
  | PStr s => negb (match s with [] => true | _ => false end)
  | PList xs => negb (match xs with [] => true | _ => false end)
  | PDict d => negb (match d with [] => true | _ => false end)
  end.

Definition str_eqb (x y : pyval) : bool :=
  match x, y with
  | PStr a, PStr b => teqb a b
  | _, _ => false
  end.

(** [x in c].  Dict keys from JSON are str, so only a str key can be found;
    the [x] of this program is always a str (a label from the command line),
    which is why a list is searched for an equal str only. *)
Definition py_contains (x c : pyval) : res bool :=
  match c with
  | PDict d =>
    match x with
    | PStr s => Ok (dict_mem d s)
    | PList _ | PDict _ => Raise (TypeError "unhashable type")
    | _ => Ok false
    end
  | PList xs => Ok (existsb (str_eqb x) xs)
  | PStr s =>
    match x with
    | PStr l => Ok (infixb l s)
    | _ => Raise (TypeError "'in <string>' requires string as left operand")
    end
  | _ => Raise (TypeError "argument of type is not iterable")
  end.

(** [c[k]] *)
Definition py_getitem (c k : pyval) : res pyval :=
  match c with
  | PDict d =>
    match k with
    | PStr s => match dict_get d s with Some v => Ok v | None => Raise KeyError end
    | PList _ | PDict _ => Raise (TypeError "unhashable type")
    | _ => Raise KeyError
    end
  | PList _ => Raise (TypeError "list indices must be integers or slices, not str")
  | PStr _ => Raise (TypeError "string indices must be integers")
  | _ => Raise (TypeError "object is not subscriptable")
  end.

(** [c[k] = v], returning the updated container. *)
Definition py_setitem (c k v : pyval) : res pyval :=
  match c with
  | PDict d =>
    match k with
    | PStr s => Ok (PDict (dict_set d s v))
    | _ => Raise (TypeError "unhashable or non-str key")
    end
  | PList _ => Raise (TypeError "list indices must be integers or slices, not str")
  | _ => Raise (TypeError "object does not support item assignment")
  end.

(** [c.pop(k)], returning the updated container. *)
Definition py_pop (c k : pyval) : res pyval :=
  match c with
  | PDict d =>
    match k with
    | PStr s => if dict_mem d s then Ok (PDict (dict_remove d s)) else Raise KeyError
    | PList _ | PDict _ => Raise (TypeError "unhashable type")
    | _ => Raise KeyError
    end
  | PList _ => Raise (TypeError "'str' object cannot be interpreted as an integer")
  | _ => Raise (AttributeError "object has no attribute 'pop'")
  end.

(** [c.items()] *)
Definition py_items (c : pyval) : res dict :=
  match c with
  | PDict d => Ok d
  | _ => Raise (AttributeError "object has no attribute 'items'")
  end.

(** [{**a, **b}] *)
Definition py_merge (a b : pyval) : res pyval :=
  match a, b with
  | PDict da, PDict db =>
    Ok (PDict (fold_left (fun acc '(k, v) => dict_set acc k v) (da ++ db) []))
  | _, _ => Raise (TypeError "argument after ** must be a mapping")
  end.

(** ** Calls: positional arguments and keyword arguments *)

Definition kwargs := list (string * pyval).

Definition has_kw (name : string) (kw : kwargs) : bool :=
  existsb (fun '(n, _) => String.eqb n name) kw.

Fixpoint kw_get (name : string) (kw : kwargs) : option pyval :=
  match kw with
  | [] => None
  | (n, v) :: r => if String.eqb n name then Some v else kw_get name r
  end.

Definition kw_without (names : list string) (kw : kwargs) : kwargs :=
  filter (fun '(n, _) => negb (existsb (String.eqb n) names)) kw.

(** A Python callable, as the decorators see it: [fn( *args, **kwargs)]. *)
Definition callable := list pyval -> kwargs -> M pyval.

Fixpoint assign_pos (params : list string) (args : list pyval) : list (string * option pyval) :=
  match params, args with
  | p :: ps, a :: r => (p, Some a) :: assign_pos ps r
  | p :: ps, [] => (p, None) :: assign_pos ps []
  | [], _ => []
  end.

Fixpoint slot_get (n : string) (slots : list (string * option pyval)) : option (option pyval) :=
  match slots with
  | [] => None
  | (p, o) :: r => if String.eqb p n then Some o else slot_get n r
  end.

Fixpoint slot_set (n : string) (v : pyval) (slots : list (string * option pyval)) :=
  match slots with
  | [] => []
  | (p, o) :: r => if String.eqb p n then (p, Some v) :: r else (p, o) :: slot_set n v r
  end.

Fixpoint assign_kw (fname : string) (slots : list (string * option pyval)) (kw : kwargs)
  : res (list (string * option pyval)) :=
  match kw with
  | [] => Ok slots
  | (n, v) :: r =>
    match slot_get n slots with
    | None => Raise (TypeError (fname ++ "() got an unexpected keyword argument '" ++ n ++ "'"))
    | Some (Some _) => Raise (TypeError (fname ++ "() got multiple values for argument '" ++ n ++ "'"))
    | Some None => assign_kw fname (slot_set n v slots) r
    end
  end%string.

Fixpoint all_filled (slots : list (string * option pyval)) : option (list pyval) :=
  match slots with
  | [] => Some []
  | (_, Some v) :: r => option_map (cons v) (all_filled r)
  | (_, None) :: _ => None
  end.

(** Binding a call to [def fname(p1, ..., pn)] (no defaults, no [*args]),
    in CPython's order: positional arguments fill the first parameters,
    then keywords, then the check for too many positional arguments, then
    the check for missing ones. *)
Definition bind_params (fname : string) (params : list string) (args : list pyval) (kw : kwargs)
  : res (list pyval) :=
  match assign_kw fname (assign_pos params args) kw with
  | Raise e => Raise e
  | Ok slots =>
    if Nat.ltb (List.length params) (List.length args)
    then Raise (TypeError (fname ++ "() takes too many positional arguments"))
    else match all_filled slots with
         | Some vals => Ok vals
         | None => Raise (TypeError (fname ++ "() missing a required positional argument"))
         end
  end%string.

Definition pyfun (fname : string) (params : list string) (body : list pyval -> M pyval) : callable :=
  fun args kw => vals <- lift (bind_params fname params args kw) ;; body vals.

(** ** The keyring store *)

Definition data_dir (h : text) : text := h ++ t "/.sw".
Definition keyring_path (h : text) : text := h ++ t "/.sw/keyring.json".

(** [save_keyring]: [open(KEYRING_PATH, 'w+')] truncates, then the JSON
    text is encoded and written. *)
Definition save_keyring (keyring : pyval) : M pyval :=
  h <- get_home ;;
  match utf8_encode (dumps keyring) with
  | Some bytes => _ <- put_file (keyring_path h) bytes ;; ret keyring
  | None => _ <- put_file (keyring_path h) [] ;; raise UnicodeEncodeError
  end.

(** The [try] block of [open_keyring_fn]: read and parse the keyring file;
    [FileNotFoundError] and [JSONDecodeError] give [{}]. *)
Definition read_keyring_file (f : option (list Z)) : res pyval :=
  match f with
  | None => Ok (PDict [])
  | Some bytes =>
    match utf8_decode bytes with
    | None => Raise UnicodeDecodeError
    | Some txt =>
      match json_loads (universal_newlines txt) with
      | Ok v => Ok v
      | Raise JSONDecodeError => Ok (PDict [])
      | Raise e => Raise e
      end
    end
  end.

Definition read_keyring : M pyval :=
  h <- get_home ;; f <- get_file (keyring_path h) ;; lift (read_keyring_file f).

(** ** The decorators *)

(** [open_keyring(write)]: [mkdir -p DATA_DIR], load, call
    [fn( *args, **kwargs, keyring=keyring)] (a [keyring] already among the
    keywords is a duplicate keyword), then save the result when [write]. *)
Definition open_keyring (write : bool) (fn : callable) : callable :=
  fun args kw =>
    h <- get_home ;;
    _ <- shell (t "mkdir -p " ++ data_dir h) ;;
    keyring <- read_keyring ;;
    if has_kw "keyring" kw
    then raise (TypeError "got multiple values for keyword argument 'keyring'")
    else result <- fn args (kw ++ [("keyring"%string, keyring)]) ;;
         if write then save_keyring result else ret result.

(** [required_argument_count(min_args)]: a bare [return] gives [None]. *)
Definition required_argument_count (min_args : nat) (fn : callable) : callable :=
  fun args kw =>
    if Nat.ltb (List.length args) min_args
    then _ <- print (t "This action requires " ++ int_repr (Z.of_nat min_args) ++ t " arguments!") ;;
         ret PNone
    else fn args kw.

(** [validate_label(exists)]: [validate_label_fn(label, *args, keyring, **kwargs)]. *)
Definition validate_label (exists_ : bool) (fn : callable) : callable :=
  fun args kw =>
    let bound :=
      match args with
      | label :: rest =>
        if has_kw "label" kw
        then Raise (TypeError "validate_label_fn() got multiple values for argument 'label'")
        else Ok (label, rest)
      | [] =>
        match kw_get "label" kw with
        | Some label => Ok (label, [])
        | None => Raise (TypeError "validate_label_fn() missing 1 required positional argument: 'label'")
        end
      end in
    lr <- lift bound ;;
    let '(label, rest) := lr in
    match kw_get "keyring" kw with
    | None => raise (TypeError "validate_label_fn() missing 1 required keyword-only argument: 'keyring'")
    | Some keyring =>
      does_exist <- lift (py_contains label keyring) ;;
      if Bool.eqb does_exist exists_
      then fn (label :: rest) (("keyring"%string, keyring) :: kw_without ["label"; "keyring"]%string kw)
      else _ <- print (if exists_ then py_str label ++ t " is not a valid label!"
                       else t "The label " ++ py_str label ++ t " is already registered!") ;;
           ret keyring
    end.

(** ** The commands *)

Definition print_version : callable :=
  fun _ _ => _ <- print VERSION ;; ret PNone.

Fixpoint print_items (d : dict) : M unit :=
  match d with
  | [] => ret tt
  | (key, addr) :: r => _ <- print (key ++ [9] ++ py_str addr) ;; print_items r
  end.

Definition list_keys_body (vals : list pyval) : M pyval :=
  match vals with
  | [keyring] =>
    _ <- print (t "LABEL" ++ [9] ++ t "ADDRESS") ;;
    items <- lift (py_items keyring) ;;
    _ <- print_items items ;;
    ret keyring
  | _ => ret PNone (* not reached: [bind_params] gives one value per parameter *)
  end.

Definition list_keys : callable :=
  open_keyring false (pyfun "list_keys" ["keyring"]%string list_keys_body).

Definition add_key_body (vals : list pyval) : M pyval :=
  match vals with
  | [label; addr; keyring] => lift (py_setitem keyring label addr)
  | _ => ret PNone
  end.

Definition add_key : callable :=
  open_keyring true
    (validate_label false
       (required_argument_count 2
          (pyfun "add_key" ["label"; "addr"; "keyring"]%string add_key_body))).

Definition remove_key_body (vals : list pyval) : M pyval :=
  match vals with
  | [label; keyring] => lift (py_pop keyring label)
  | _ => ret PNone
  end.

Definition remove_key : callable :=
  open_keyring true
    (validate_label true
       (required_argument_count 1
          (pyfun "remove_key" ["label"; "keyring"]%string remove_key_body))).

(** [rename_key] calls the decorated [add_key] and [remove_key].  In Python
    they would update [keyring] in place; they never get that far, since
    [open_keyring_fn] receives a second [keyring] keyword and raises first
    (see [nested_keyring_call_raises]). *)
Definition rename_key_body (vals : list pyval) : M pyval :=
  match vals with
  | [label; new_label; keyring] =>
    v <- lift (py_getitem keyring label) ;;
    r <- add_key [new_label; v] [("keyring"%string, keyring)] ;;
    if negb (truthy r) then ret keyring else
    r2 <- remove_key [label] [("keyring"%string, keyring)] ;;
    if negb (truthy r2) then ret keyring else
    ret keyring
  | _ => ret PNone
  end.

Definition rename_key : callable :=
  open_keyring true
    (required_argument_count 2
       (pyfun "rename_key" ["label"; "new_label"; "keyring"]%string rename_key_body)).

Definition ssh_connect_body (vals : list pyval) : M pyval :=
  match vals with
  | [label; keyring] =>
    a <- lift (py_getitem keyring label) ;;
    _ <- print (t "Connecting to " ++ py_str a ++ t "...") ;;
    a' <- lift (py_getitem keyring label) ;;
    _ <- shell (t "ssh " ++ py_str a') ;;
    _ <- print (t "ssh session finished") ;;
    ret keyring
  | _ => ret PNone
  end.

Definition ssh_connect : callable :=
  open_keyring true
    (validate_label true
       (required_argument_count 1
          (pyfun "ssh_connect" ["label"; "keyring"]%string ssh_connect_body))).

Definition ssh_run_body (vals : list pyval) : M pyval :=
  match vals with
  | [label; command; keyring] =>
    a <- lift (py_getitem keyring label) ;;
    _ <- print (t "Connecting to " ++ py_str a ++ t "...") ;;
    a' <- lift (py_getitem keyring label) ;;
    _ <- shell (t "ssh -t " ++ py_str a' ++ [32] ++ py_str command) ;;
    _ <- print (t "ssh session finished") ;;
    ret keyring
  | _ => ret PNone
  end.

Definition ssh_run : callable :=
  open_keyring true
    (validate_label true
       (required_argument_count 2
          (pyfun "ssh_run" ["label"; "command"; "keyring"]%string ssh_run_body))).

Definition export_keyring_body (vals : list pyval) : M pyval :=
  match vals with
  | [keyring] => _ <- print (dumps keyring) ;; ret keyring
  | _ => ret PNone
  end.

Definition export_keyring : callable :=
  open_keyring false (pyfun "export_keyring" ["keyring"]%string export_keyring_body).

(** [import_keyring(keyring, filepath)]: note the parameter order. *)
Definition import_keyring_body (vals : list pyval) : M pyval :=
  match vals with
  | [keyring; filepath] =>
    _ <- print (t "Merging current keyring and external keyring...") ;;
    match filepath with
    | PStr p =>
      f <- get_file p ;;
      match f with
      | None => raise FileNotFoundError
      | Some bytes =>
        match utf8_decode bytes with
        | None => raise UnicodeDecodeError
        | Some txt =>
          new_keys <- lift (json_loads (universal_newlines txt)) ;;
          lift (py_merge keyring new_keys)
        end
      end
    | _ => raise (TypeError "expected str, bytes or os.PathLike object")
    end
  | _ => ret PNone
  end.

Definition import_keyring : callable :=
  open_keyring true
    (required_argument_count 1
       (pyfun "import_keyring" ["keyring"; "filepath"]%string import_keyring_body)).

Definition commands : list (text * callable) :=
  [(t "version", print_version);
   (t "list", list_keys);
   (t "add", add_key);
   (t "rename", rename_key);
   (t "remove", remove_key);
   (t "connect", ssh_connect);
   (t "export", export_keyring);
   (t "import", import_keyring);
   (t "run", ssh_run)].

Fixpoint lookup_command (name : text) (cs : list (text * callable)) : option callable :=
  match cs with
  | [] => None
  | (n, f) :: r => if teqb name n then Some f else lookup_command name r
  end.

Fixpoint print_lines (ls : list text) : M unit :=
  match ls with
  | [] => ret tt
  | l :: r => _ <- print l ;; print_lines r
  end.

Definition print_usage : M unit :=
  print_lines
    [t "USAGE: sw COMMAND"; []; t "Possible commands:"; [];
     t "sw version"; t "sw list";
     t "sw add       LABEL   ADDR";
     t "sw rename    LABEL   NEWLABEL";
     t "sw remove    LABEL";
     t "sw connect   LABEL";
     t "sw run       LABEL   COMMAND";
     t "sw export";
     t "sw import    FILE"].

(** [main()]; [exit()] after the usage ends the process normally. *)
Definition main (argv : list text) : M unit :=
  match argv with
  | [] => raise IndexError
  | [_] => print_usage
  | _ :: command :: rest =>
    match lookup_command command commands with
    | None => print_usage
    | Some f => _ <- f (map PStr rest) [] ;; ret tt
    end
  end.

(** One run of [sw] with home directory [h], files [files] and [sys.argv]. *)
Definition invoke (h : text) (files : list (text * list Z)) (argv : list text) : res unit * world :=
  main argv (mkWorld h files []).

(** The keyring the next run would load. *)
Definition keyring_of (w : world) : res pyval :=
  read_keyring_file (fs_lookup (fs w) (keyring_path (home w))).

Definition printed (w : world) : list text :=
  flat_map (fun e => match e with EPrint l => [l] | EShell _ => [] end) (out w).

(** * Facts about the model *)

(** ** Text equality, files *)

Lemma teqb_eq : forall a b, teqb a b = true <-> a = b.
Proof.
  induction a as [|x a IH]; destruct b as [|y b]; simpl; split; intro H;
    try discriminate; try reflexivity.
  - apply andb_prop in H as [H1 H2]. apply Z.eqb_eq in H1. apply IH in H2. now subst.
  - injection H as -> ->. rewrite Z.eqb_refl. simpl. now apply IH.
Qed.

Lemma teqb_refl : forall a, teqb a a = true.
Proof. intro a. now apply teqb_eq. Qed.

Lemma fs_lookup_write : forall f p b, fs_lookup (fs_write f p b) p = Some b.
Proof.
  induction f as [|[q b'] f IH]; intros p b; simpl.
  - now rewrite teqb_refl.
  - destruct (teqb p q) eqn:E; simpl; rewrite E; auto.
Qed.

(** ** Hex digits and surrogates *)

Lemma hex_val_hexdig : forall d, 0 <= d < 16 -> hex_val (hexdig d) = Some d.
Proof.
  intros d Hd. unfold hexdig, hex_val.
  destruct (d <? 10) eqn:E1.
  - apply Z.ltb_lt in E1.
    replace ((48 <=? 48 + d) && (48 + d <=? 57)) with true
      by (symmetry; apply andb_true_intro; split; apply Z.leb_le; lia).
    f_equal; lia.
  - apply Z.ltb_ge in E1.
    replace ((48 <=? 87 + d) && (87 + d <=? 57)) with false
      by (symmetry; apply andb_false_intro2; apply Z.leb_gt; lia).
    replace ((97 <=? 87 + d) && (87 + d <=? 102)) with true
      by (symmetry; apply andb_true_intro; split; apply Z.leb_le; lia).
    f_equal; lia.
Qed.

Lemma hex4_u_escape : forall x, 0 <= x < 65536 ->
  hex4 (hexdig (x / 4096 mod 16)) (hexdig (x / 256 mod 16))
       (hexdig (x / 16 mod 16)) (hexdig (x mod 16)) = Some x.
Proof.
  intros x Hx. unfold hex4.
  rewrite !hex_val_hexdig by (apply Z.mod_pos_bound; lia).
  f_equal. Z.div_mod_to_equations. lia.
Qed.

Lemma hex_val_range : forall c d, hex_val c = Some d -> 0 <= d < 16.
Proof.
  intros c d H. unfold hex_val in H.
  destruct ((48 <=? c) && (c <=? 57)) eqn:E1;
    [| destruct ((97 <=? c) && (c <=? 102)) eqn:E2;
       [| destruct ((65 <=? c) && (c <=? 70)) eqn:E3]];
    try discriminate; injection H as <-;
    repeat match goal with
           | E : (_ && _) = true |- _ => apply andb_prop in E as [? ?]
           | E : (_ <=? _) = true |- _ => apply Z.leb_le in E
           end; lia.
Qed.

Lemma hex4_range : forall a b c d u, hex4 a b c d = Some u -> 0 <= u < 65536.
Proof.
  intros a b c d u H. unfold hex4 in H.
  destruct (hex_val a) as [x|] eqn:Ea; [|discriminate].
  destruct (hex_val b) as [y|] eqn:Eb; [|discriminate].
  destruct (hex_val c) as [z|] eqn:Ec; [|discriminate].
  destruct (hex_val d) as [v|] eqn:Ed; [|discriminate].
  injection H as <-.
  apply hex_val_range in Ea, Eb, Ec, Ed. lia.
Qed.

Definition high_of (c : Z) : Z := 55232 + Z.shiftr c 10.
Definition low_of (c : Z) : Z := 56320 + Z.land c 1023.

Lemma shiftr10 : forall c, Z.shiftr c 10 = c / 1024.
Proof. intro c. now rewrite Z.shiftr_div_pow2 by lia. Qed.

Lemma land1023 : forall c, Z.land c 1023 = c mod 1024.
Proof. intro c. change 1023 with (Z.ones 10). now rewrite Z.land_ones by lia. Qed.

Lemma lor_shiftl10 : forall a r, 0 <= r < 1024 ->
  Z.lor (Z.shiftl a 10) r = a * 1024 + r.
Proof.
  intros a r Hr.
  assert (Hr' : Z.land r (Z.ones 10) = r)
    by (rewrite Z.land_ones by lia; apply Z.mod_small; exact Hr).
  assert (H0 : Z.land (Z.shiftl a 10) (Z.ones 10) = 0).
  { rewrite Z.land_ones by lia. rewrite Z.shiftl_mul_pow2 by lia.
    apply Z.mod_mul. lia. }
  assert (Hl : Z.land (Z.shiftl a 10) r = 0).
  { rewrite <- Hr', (Z.land_comm r), Z.land_assoc, H0. apply Z.land_0_l. }
  rewrite <- Z.lxor_lor by exact Hl.
  rewrite <- Z.add_nocarry_lxor by exact Hl.
  rewrite Z.shiftl_mul_pow2 by lia. reflexivity.
Qed.

Lemma high_of_range : forall c, 65536 <= c <= 1114111 ->
  55296 <= high_of c <= 56319.
Proof.
  intros c Hc. unfold high_of. rewrite shiftr10. Z.div_mod_to_equations. lia.
Qed.

Lemma low_of_range : forall c, 56320 <= low_of c <= 57343.
Proof.
  intro c. unfold low_of. rewrite land1023.
  pose proof (Z.mod_pos_bound c 1024). lia.
Qed.

Lemma join_high_low : forall c, 65536 <= c <= 1114111 ->
  join_surrogates (high_of c) (low_of c) = c.
Proof.
  intros c Hc. unfold join_surrogates, high_of, low_of.
  rewrite !land1023, shiftr10.
  rewrite lor_shiftl10 by (apply Z.mod_pos_bound; lia).
  Z.div_mod_to_equations. lia.
Qed.

Lemma join_range : forall h l, 65536 <= join_surrogates h l <= 1114111.
Proof.
  intros h l. unfold join_surrogates. rewrite !land1023.
  rewrite lor_shiftl10 by (apply Z.mod_pos_bound; lia).
  pose proof (Z.mod_pos_bound h 1024). pose proof (Z.mod_pos_bound l 1024). nia.
Qed.

(** ** [json.dumps] then [scanstring] gives the string back *)

Definition in_range (c : Z) : Prop := 0 <= c <= 1114111.

(** No high surrogate directly followed by a low one: such a pair would be
    read back as one character. *)
Fixpoint no_hi_lo (x : text) : bool :=
  match x with
  | a :: ((b :: _) as r) => negb (is_high a && is_low b) && no_hi_lo r
  | _ => true
  end.

Definition ok_str (x : text) : Prop := Forall in_range x /\ no_hi_lo x = true.

Ltac zbool :=
  repeat match goal with
  | H : (_ && _) = true |- _ => apply andb_prop in H as [? ?]
  | H : (_ || _) = false |- _ => apply orb_false_iff in H as [? ?]
  | H : negb _ = true |- _ => apply negb_true_iff in H
  | H : negb _ = false |- _ => apply negb_false_iff in H
  | H : (_ =? _) = true |- _ => apply Z.eqb_eq in H
  | H : (_ =? _) = false |- _ => apply Z.eqb_neq in H
  | H : (_ <=? _) = true |- _ => apply Z.leb_le in H
  | H : (_ <=? _) = false |- _ => apply Z.leb_gt in H
  | H : (_ <? _) = true |- _ => apply Z.ltb_lt in H
  | H : (_ <? _) = false |- _ => apply Z.ltb_ge in H
  end.

Lemma ok_str_tail : forall c x, ok_str (c :: x) -> ok_str x.
Proof.
  intros c x [Hr Hn]. inversion Hr; subst. split; [assumption|].
  destruct x as [|b x]; [reflexivity|]. simpl in Hn. now apply andb_prop in Hn as [_ ?].
Qed.

Lemma scan_u_lone : forall u R,
  0 <= u < 65536 ->
  (is_high u = true -> forall b v g1 g2 g3 g4 r3,
      R = b :: v :: g1 :: g2 :: g3 :: g4 :: r3 -> (b =? 92) && (v =? 117) = true ->
      exists u2, hex4 g1 g2 g3 g4 = Some u2 /\ is_low u2 = false) ->
  scanstring (u_escape u ++ R) = cons_res u (scanstring R).
Proof.
  intros u R Hu Hla. unfold u_escape. cbn [app]. simpl scanstring.
  rewrite hex4_u_escape by exact Hu.
  destruct (is_high u) eqn:Eh; [|reflexivity].
  destruct R as [|b [|v [|g1 [|g2 [|g3 [|g4 r3]]]]]]; try reflexivity.
  destruct ((b =? 92) && (v =? 117)) eqn:Ebv; [|reflexivity].
  destruct (Hla eq_refl b v g1 g2 g3 g4 r3 eq_refl Ebv) as [u2 [Hu2 Hl]].
  now rewrite Hu2, Hl.
Qed.

Lemma scan_u_pair : forall c R, 65536 <= c <= 1114111 ->
  scanstring (u_escape (high_of c) ++ u_escape (low_of c) ++ R) = cons_res c (scanstring R).
Proof.
  intros c R Hc. pose proof (high_of_range c Hc) as Hh. pose proof (low_of_range c) as Hl.
  unfold u_escape. cbn [app]. simpl scanstring.
  rewrite hex4_u_escape by lia.
  replace (is_high (high_of c)) with true
    by (symmetry; unfold is_high; apply andb_true_intro; split; apply Z.leb_le; lia).
  simpl (92 =? 92). simpl (117 =? 117). simpl andb. cbv iota beta.
  rewrite hex4_u_escape by lia.
  replace (is_low (low_of c)) with true
    by (symmetry; unfold is_low; apply andb_true_intro; split; apply Z.leb_le; lia).
  now rewrite join_high_low by exact Hc.
Qed.

Lemma is_low_high_of : forall c, 65536 <= c <= 1114111 -> is_low (high_of c) = false.
Proof.
  intros c Hc. pose proof (high_of_range c Hc). unfold is_low.
  apply andb_false_intro1. apply Z.leb_gt. lia.
Qed.

(** The four shapes the escape of one character takes. *)
Inductive esc_shape (c : Z) : text -> Prop :=
| ES_plain : 32 <= c <= 126 -> c <> 92 -> c <> 34 -> esc_shape c [c]
| ES_short : forall e, e <> 117 ->
    (forall R, scanstring (92 :: e :: R) = cons_res c (scanstring R)) ->
    esc_shape c [92; e]
| ES_pair : 65536 <= c -> esc_shape c (u_escape (high_of c) ++ u_escape (low_of c))
| ES_u : c < 65536 -> esc_shape c (u_escape c).

Lemma esc_shape_ok : forall c, esc_shape c (ascii_escape_char c).
Proof.
  intro c. unfold ascii_escape_char.
  destruct ((32 <=? c) && (c <=? 126) && negb (c =? 92) && negb (c =? 34)) eqn:E1.
  { zbool. apply ES_plain; lia. }
  destruct (c =? 92) eqn:Ea; [apply Z.eqb_eq in Ea; subst; apply ES_short; [discriminate | reflexivity]|].
  destruct (c =? 34) eqn:Eb; [apply Z.eqb_eq in Eb; subst; apply ES_short; [discriminate | reflexivity]|].
  destruct (c =? 8) eqn:Ec; [apply Z.eqb_eq in Ec; subst; apply ES_short; [discriminate | reflexivity]|].
  destruct (c =? 12) eqn:Ed; [apply Z.eqb_eq in Ed; subst; apply ES_short; [discriminate | reflexivity]|].
  destruct (c =? 10) eqn:Ee; [apply Z.eqb_eq in Ee; subst; apply ES_short; [discriminate | reflexivity]|].
  destruct (c =? 13) eqn:Ef; [apply Z.eqb_eq in Ef; subst; apply ES_short; [discriminate | reflexivity]|].
  destruct (c =? 9) eqn:Eg; [apply Z.eqb_eq in Eg; subst; apply ES_short; [discriminate | reflexivity]|].
  destruct (65536 <=? c) eqn:Eh; zbool.
  - exact (ES_pair c Eh).
  - apply ES_u. lia.
Qed.

(** What follows a lone high surrogate's escape never starts with the
    escape of a low surrogate. *)
Lemma lookahead_after_high : forall c d T b v g1 g2 g3 g4 r3,
  is_high c = true -> no_hi_lo (c :: d :: nil) = true -> in_range d ->
  ascii_escape_char d ++ T = b :: v :: g1 :: g2 :: g3 :: g4 :: r3 ->
  (b =? 92) && (v =? 117) = true ->
  exists u2, hex4 g1 g2 g3 g4 = Some u2 /\ is_low u2 = false.
Proof.
  intros c d T b v g1 g2 g3 g4 r3 Hh Hn Hd HR Hbv.
  assert (Hld : is_low d = false).
  { cbn [no_hi_lo] in Hn. rewrite Hh in Hn. apply andb_prop in Hn as [Hn _].
    now apply negb_true_iff in Hn. }
  unfold in_range in Hd. apply andb_prop in Hbv as [Hb Hv].
  apply Z.eqb_eq in Hb, Hv. subst b v.
  destruct (esc_shape_ok d) as [Hp H92 H34|e He _|Hge|Hlt].
  - injection HR as Hd92 _. congruence.
  - injection HR as He' _. congruence.
  - unfold u_escape in HR. cbn [app] in HR.
    injection HR as <- <- <- <- _.
    exists (high_of d). split.
    + apply hex4_u_escape. pose proof (high_of_range d). lia.
    + apply is_low_high_of. lia.
  - unfold u_escape in HR. cbn [app] in HR.
    injection HR as <- <- <- <- _.
    exists d. split; [apply hex4_u_escape; lia | exact Hld].
Qed.

Lemma no_hi_lo_head : forall c d x, no_hi_lo (c :: d :: x) = true ->
  no_hi_lo (c :: d :: nil) = true.
Proof.
  intros c d x H. cbn [no_hi_lo] in *. apply andb_prop in H as [H _].
  now rewrite H.
Qed.

Lemma scanstring_encode : forall x rest, ok_str x ->
  scanstring (flat_map ascii_escape_char x ++ 34 :: rest) = Some (x, rest).
Proof.
  induction x as [|c x IH]; intros rest Hok; [reflexivity|].
  pose proof (ok_str_tail _ _ Hok) as Hok'. specialize (IH rest Hok').
  destruct Hok as [Hr Hn]. inversion Hr as [|? ? Hc Hr']; subst.
  cbn [flat_map]. rewrite <- app_assoc.
  unfold in_range in Hc.
  remember (flat_map ascii_escape_char x ++ 34 :: rest) as R eqn:HR.
  destruct (esc_shape_ok c) as [Hp H92 H34|e He Hsc|Hge|Hlt].
  - cbn [app]. cbn [scanstring].
    replace (c =? 34) with false by (symmetry; apply Z.eqb_neq; lia).
    replace (c =? 92) with false by (symmetry; apply Z.eqb_neq; lia).
    replace (c <? 32) with false by (symmetry; apply Z.ltb_ge; lia).
    now rewrite IH.
  - cbn [app]. now rewrite Hsc, IH.
  - rewrite <- app_assoc, scan_u_pair by lia. now rewrite IH.
  - rewrite scan_u_lone; [now rewrite IH | lia |].
    intros Hh b v g1 g2 g3 g4 r3 HR' Hbv. subst R.
    destruct x as [|d x].
    + cbn in HR'. injection HR' as <- _. discriminate.
    + inversion Hr'; subst. cbn [flat_map] in HR'. rewrite <- app_assoc in HR'.
      eapply lookahead_after_high; [exact Hh | eapply no_hi_lo_head; exact Hn | assumption | exact HR' | exact Hbv].
Qed.

(** ** What decoding produces *)

(** A character the decoder can produce: no surrogate and nothing above
    U+10FFFF.  (Nothing checks that the file's bytes are in [0, 255]; a
    byte below 128 is passed on as it is.) *)
Definition text_char (c : Z) : Prop := c <= 1114111 /\ ~ (55296 <= c <= 57343).

Lemma utf8_decode_chars : forall n bs txt, (List.length bs <= n)%nat ->
  utf8_decode bs = Some txt -> Forall text_char txt.
Proof.
  induction n as [|n IH]; intros bs txt Hn H.
  { destruct bs; [injection H as <-; constructor | simpl in Hn; lia]. }
  destruct bs as [|b0 r]; [injection H as <-; constructor|].
  cbn [utf8_decode] in H. simpl List.length in Hn.
  destruct (b0 <? 128) eqn:E0.
  { destruct (utf8_decode r) as [tx|] eqn:Er; [|discriminate].
    injection H as <-. zbool. constructor; [split; lia|eapply IH; [|exact Er]; lia]. }
  destruct ((194 <=? b0) && (b0 <=? 223)) eqn:E1.
  { destruct r as [|b1 r1]; [discriminate|].
    destruct (cont b1) eqn:Ec; [|discriminate].
    destruct (utf8_decode r1) as [tx|] eqn:Er; [|discriminate].
    injection H as <-. unfold cont in Ec. zbool.
    constructor; [split; lia|eapply IH; [|exact Er]; simpl in Hn; lia]. }
  destruct ((224 <=? b0) && (b0 <=? 239)) eqn:E2.
  { destruct r as [|b1 [|b2 r2]]; try discriminate.
    destruct ((if b0 =? 224 then 160 else 128) <=? b1) eqn:El; [|discriminate].
    destruct (b1 <=? (if b0 =? 237 then 159 else 191)) eqn:Eh; [|discriminate].
    destruct (cont b2) eqn:Ec; [|discriminate]. cbn [andb] in H.
    destruct (utf8_decode r2) as [tx|] eqn:Er; [|discriminate].
    injection H as <-. unfold cont in Ec. zbool.
    constructor; [|eapply IH; [|exact Er]; simpl in Hn; lia].
    destruct (b0 =? 224) eqn:Ea; destruct (b0 =? 237) eqn:Eb; zbool; split; lia. }
  destruct ((240 <=? b0) && (b0 <=? 244)) eqn:E3; [|discriminate].
  destruct r as [|b1 [|b2 [|b3 r3]]]; try discriminate.
  destruct ((if b0 =? 240 then 144 else 128) <=? b1) eqn:El; [|discriminate].
  destruct (b1 <=? (if b0 =? 244 then 143 else 191)) eqn:Eh; [|discriminate].
  destruct (cont b2) eqn:Ec; [|discriminate].
  destruct (cont b3) eqn:Ec'; [|discriminate]. cbn [andb] in H.
  destruct (utf8_decode r3) as [tx|] eqn:Er; [|discriminate].
  injection H as <-. unfold cont in Ec, Ec'. zbool.
  constructor; [|eapply IH; [|exact Er]; simpl in Hn; lia].
  destruct (b0 =? 240) eqn:Ea; destruct (b0 =? 244) eqn:Eb; zbool; split; lia.
Qed.

Lemma universal_newlines_in : forall n s c, (List.length s <= n)%nat ->
  In c (universal_newlines s) -> c = 10 \/ In c s.
Proof.
  induction n as [|n IH]; intros [|a r] c Hn Hin; try (simpl in Hn; lia); try contradiction.
  cbn [universal_newlines] in Hin. simpl List.length in Hn.
  destruct (a =? 13).
  - destruct Hin as [<-|Hin]; [now left|].
    destruct r as [|d r']; [contradiction|].
    destruct (d =? 10).
    + destruct (IH r' c ltac:(simpl in Hn; lia) Hin) as [?|?]; [now left | right; simpl; auto].
    + destruct (IH (d :: r') c ltac:(lia) Hin) as [?|?]; [now left | right; simpl; auto].
  - destruct Hin as [<-|Hin]; [right; now left|].
    destruct (IH r c ltac:(lia) Hin) as [?|?]; [now left | right; simpl; auto].
Qed.

Lemma universal_newlines_chars : forall s, Forall text_char s ->
  Forall text_char (universal_newlines s).
Proof.
  intros s H. apply Forall_forall. intros c Hin.
  destruct (universal_newlines_in (List.length s) s c (le_n _) Hin) as [->|Hc].
  - split; lia.
  - exact (proj1 (Forall_forall _ _) H c Hc).
Qed.

(** ** What [scanstring] produces from decoded text *)

(** When [x] starts with a low surrogate, the input [s] starts with its
    [\u] escape. *)
Definition low_head (x s : text) : Prop :=
  forall y x', x = y :: x' -> is_low y = true ->
  exists g1 g2 g3 g4 s', s = 92 :: 117 :: g1 :: g2 :: g3 :: g4 :: s' /\
                         hex4 g1 g2 g3 g4 = Some y.

Lemma cons_res_inv : forall u o x r, cons_res u o = Some (x, r) ->
  exists x', o = Some (x', r) /\ x = u :: x'.
Proof.
  intros u [[x' r']|] x r H; [|discriminate].
  injection H as <- <-. eauto.
Qed.

Lemma step_ok : forall u x' r s,
  in_range u -> ok_str x' -> Forall text_char r ->
  (is_high u = true -> forall y x'', x' = y :: x'' -> is_low y = false) ->
  (is_low u = true -> exists g1 g2 g3 g4 s', s = 92 :: 117 :: g1 :: g2 :: g3 :: g4 :: s' /\
                                             hex4 g1 g2 g3 g4 = Some u) ->
  ok_str (u :: x') /\ Forall text_char r /\ low_head (u :: x') s.
Proof.
  intros u x' r s Hu [Hr Hn] Hrest Hhl Hlh. split; [|split; [exact Hrest|]].
  - split; [now constructor|]. destruct x' as [|y x'']; [reflexivity|].
    change (no_hi_lo (u :: y :: x'')) with (negb (is_high u && is_low y) && no_hi_lo (y :: x'')).
    rewrite Hn, andb_true_r. apply negb_true_iff.
    destruct (is_high u) eqn:Eh; [|reflexivity].
    now rewrite (Hhl eq_refl y x'' eq_refl).
  - intros y x'' Heq Hl. injection Heq as <- _. now apply Hlh.
Qed.

Lemma not_high_low : forall u, is_high u = true -> is_low u = false.
Proof.
  intros u H. unfold is_high, is_low in *. zbool.
  apply andb_false_intro1. apply Z.leb_gt. lia.
Qed.

Ltac range_bool :=
  unfold is_high, is_low; apply not_true_iff_false; intro; zbool; lia.

Lemma const_step : forall u x' r s, in_range u -> is_high u = false -> is_low u = false ->
  ok_str x' -> Forall text_char r -> ok_str (u :: x') /\ Forall text_char r /\ low_head (u :: x') s.
Proof.
  intros u x' r s Hu Hh Hl Hx Hr. apply step_ok; try assumption; congruence.
Qed.

Lemma scanstring_inv : forall n s x r, (List.length s <= n)%nat -> Forall text_char s ->
  scanstring s = Some (x, r) -> ok_str x /\ Forall text_char r /\ low_head x s.
Proof.
  induction n as [|n IH]; intros s x r Hn Hs H.
  { destruct s; [discriminate | simpl in Hn; lia]. }
  destruct s as [|c r0]; [discriminate|].
  simpl List.length in Hn. inversion Hs as [|? ? Hc Hr0]; subst.
  cbn [scanstring] in H.
  destruct (c =? 34) eqn:E34.
  { injection H as <- <-. split; [split; [constructor | reflexivity]|].
    split; [exact Hr0|]. intros y x' Heq. discriminate. }
  destruct (c =? 92) eqn:E92.
  2:{ destruct (c <? 32) eqn:Elt; [discriminate|].
      apply cons_res_inv in H as [x' [Hs' ->]].
      destruct (IH r0 _ _ ltac:(lia) Hr0 Hs') as [Hok [Hr Hlh]].
      zbool. destruct Hc as [Hc1 Hc2].
      apply const_step; try assumption;
        try (unfold in_range; lia); range_bool. }
  apply Z.eqb_eq in E92; subst c.
  destruct r0 as [|e r']; [discriminate|].
  pose proof (Forall_inv_tail Hr0) as Hr'.
  destruct (e =? 117) eqn:E117.
  2:{ repeat match type of H with
      | (if (e =? ?k) then cons_res ?u _ else _) = _ =>
        let E := fresh "Ee" in
        destruct (e =? k) eqn:E;
        [ apply cons_res_inv in H as [x' [Hs' ->]];
          destruct (IH r' _ _ ltac:(simpl in Hn; lia) Hr' Hs') as [Hok [Hr Hlh]];
          apply const_step;
          [ unfold in_range; lia | reflexivity | reflexivity | exact Hok | exact Hr] | ]
      end.
      discriminate. }
  apply Z.eqb_eq in E117; subst e.
  destruct r' as [|h1 [|h2 [|h3 [|h4 r'']]]]; try discriminate.
  pose proof (Forall_inv_tail (Forall_inv_tail (Forall_inv_tail (Forall_inv_tail Hr'))))
    as Hr''.
  destruct (hex4 h1 h2 h3 h4) as [u|] eqn:Ehex; [|discriminate].
  pose proof (hex4_range _ _ _ _ _ Ehex) as Hu.
  assert (Kont : forall x, cons_res u (scanstring r'') = Some (x, r) ->
    (is_high u = true -> forall y g1 g2 g3 g4 s', r'' = 92 :: 117 :: g1 :: g2 :: g3 :: g4 :: s' ->
       hex4 g1 g2 g3 g4 = Some y -> is_low y = false) ->
    ok_str x /\ Forall text_char r /\ low_head x (92 :: 117 :: h1 :: h2 :: h3 :: h4 :: r'')).
  { intros x0 H0 Hno. apply cons_res_inv in H0 as [x' [Hs' ->]].
    destruct (IH r'' _ _ ltac:(simpl in Hn; lia) Hr'' Hs') as [Hok [Hr Hlh]].
    apply step_ok; try assumption.
    - unfold in_range; lia.
    - intros Hh y x'' -> . destruct (is_low y) eqn:Ely; [|reflexivity].
      destruct (Hlh y x'' eq_refl Ely) as (g1 & g2 & g3 & g4 & s' & Heq & Hg).
      rewrite <- Ely. exact (Hno Hh y g1 g2 g3 g4 s' Heq Hg).
    - intro Hl. exists h1, h2, h3, h4, r''. split; [reflexivity | exact Ehex]. }
  destruct (is_high u) eqn:Eh.
  2:{ apply Kont; [exact H | discriminate]. }
  destruct r'' as [|b [|v [|g1 [|g2 [|g3 [|g4 r3]]]]]];
    try (apply Kont; [exact H | intros _ y ? ? ? ? ? Heq; discriminate]).
  destruct ((b =? 92) && (v =? 117)) eqn:Ebv.
  2:{ apply Kont; [exact H|]. intros _ y ? ? ? ? ? Heq. injection Heq as -> -> _.
      discriminate. }
  destruct (hex4 g1 g2 g3 g4) as [u2|] eqn:Eg; [|discriminate].
  destruct (is_low u2) eqn:El.
  2:{ apply Kont; [exact H|]. intros _ y ? ? ? ? ? Heq Hy.
      injection Heq as _ _ <- <- <- <- _. congruence. }
  apply cons_res_inv in H as [x' [Hs' ->]].
  pose proof (Forall_inv_tail (Forall_inv_tail (Forall_inv_tail (Forall_inv_tail
    (Forall_inv_tail (Forall_inv_tail Hr'')))))) as Hr3.
  destruct (IH r3 _ _ ltac:(simpl in Hn; lia) Hr3 Hs') as [Hok [Hr Hlh]].
  pose proof (join_range u u2) as Hj.
  apply const_step; try assumption;
    try (unfold in_range; lia); range_bool.
Qed.

(** ** What [json.loads] produces from decoded text *)

Definition val_ok (v : pyval) : Prop :=
  match v with PStr s => ok_str s | _ => True end.

(** Keys distinct, keys and str values well formed. *)
Definition dict_ok (d : dict) : Prop :=
  NoDup (map fst d) /\ Forall (fun kv => ok_str (fst kv) /\ val_ok (snd kv)) d.

Definition top_ok (v : pyval) : Prop :=
  match v with PStr s => ok_str s | PDict d => dict_ok d | _ => True end.

Lemma top_val_ok : forall v, top_ok v -> val_ok v.
Proof. intros [] H; simpl in *; auto. Qed.

Lemma dict_set_keys : forall acc k v key, In key (map fst (dict_set acc k v)) ->
  key = k \/ In key (map fst acc).
Proof.
  induction acc as [|[k' v'] r IH]; intros k v key H; simpl in H.
  - destruct H as [->|[]]. now left.
  - destruct (teqb k k'); simpl in H.
    + right. simpl. exact H.
    + destruct H as [->|H]; [right; now left|].
      destruct (IH k v key H) as [?|?]; [now left | right; now right].
Qed.

Lemma dict_set_ok : forall acc k v, dict_ok acc -> ok_str k -> val_ok v ->
  dict_ok (dict_set acc k v).
Proof.
  induction acc as [|[k' v'] r IH]; intros k v [Hnd Hf] Hk Hv; simpl.
  - split; [constructor; [intros []|constructor] | constructor; [split; assumption|constructor]].
  - inversion Hnd as [|? ? Hni Hnd']; subst. inversion Hf as [|? ? [Hk' Hv'] Hf']; subst.
    destruct (teqb k k') eqn:E.
    + split; [exact Hnd|]. constructor; [split; assumption | exact Hf'].
    + destruct (IH k v (conj Hnd' Hf') Hk Hv) as [Hnd2 Hf2].
      split; [|constructor; [split; assumption | exact Hf2]].
      simpl. constructor; [|exact Hnd2].
      intro Hin. destruct (dict_set_keys r k v k' Hin) as [->|Hin'].
      * now rewrite teqb_refl in E.
      * exact (Hni Hin').
Qed.

Lemma skip_ws_forall : forall P s, Forall P s -> Forall P (skip_ws s).
Proof.
  intros P. induction s as [|c r IH]; intro H; simpl; [constructor|].
  destruct (is_ws c); [apply IH; now inversion H | exact H].
Qed.

Lemma skipn_forall : forall (P : Z -> Prop) n (s : text), Forall P s -> Forall P (skipn n s).
Proof.
  intros P n s H. apply Forall_forall. intros x Hx.
  apply (proj1 (Forall_forall _ _) H). rewrite <- (firstn_skipn n s).
  apply in_or_app. now right.
Qed.

Lemma span_digits_app : forall s ds rest, span_digits s = (ds, rest) -> s = ds ++ rest.
Proof.
  induction s as [|c r IH]; intros ds rest H; simpl in H.
  - now injection H as <- <-.
  - destruct (is_digit c).
    + destruct (span_digits r) as [ds' rest'] eqn:E. injection H as <- <-.
      simpl. f_equal. now apply IH.
    + now injection H as <- <-.
Qed.

Definition suffix (r s : text) : Prop := exists p, s = p ++ r.

Lemma suffix_refl : forall s, suffix s s.
Proof. intro s. now exists []. Qed.

Lemma suffix_trans : forall a b c, suffix a b -> suffix b c -> suffix a c.
Proof.
  intros a b c [p ->] [q ->]. exists (q ++ p). now rewrite app_assoc.
Qed.

Lemma suffix_cons : forall c r s, suffix (c :: r) s -> suffix r s.
Proof.
  intros c r s [p ->]. exists (p ++ [c]). now rewrite <- app_assoc.
Qed.

Lemma suffix_tail : forall (c : Z) r, suffix r (c :: r).
Proof. intros c r. now exists [c]. Qed.

Lemma suffix_forall : forall (P : Z -> Prop) r s, suffix r s -> Forall P s -> Forall P r.
Proof.
  intros P r s [p ->] H. now apply Forall_app in H as [_ H].
Qed.

Lemma span_digits_suffix : forall s, suffix (snd (span_digits s)) s.
Proof.
  intro s. destruct (span_digits s) as [ds rest] eqn:E. exists ds.
  now apply span_digits_app.
Qed.

Ltac destruct_let_pair H :=
  match type of H with
  | (let '(_, _) := ?X in _) = _ =>
    let a := fresh "a" in let b := fresh "b" in let E := fresh "Ep" in
    destruct X as [a b] eqn:E
  end.

(** A number is an [int] or a [float], read from the front of [s]. *)
Lemma match_number_inv : forall s v r, match_number s = Ok (v, r) ->
  suffix r s /\ top_ok v.
Proof.
  intros s v r H. unfold match_number in H.
  destruct_let_pair H.
  assert (S1 : suffix b s).
  { destruct s as [|c r0]; [injection Ep as _ <-; apply suffix_refl|].
    destruct (c =? 45); injection Ep as _ <-;
      [apply suffix_tail | apply suffix_refl]. }
  clear Ep.
  match type of H with
  | (match ?X with Some _ => _ | None => _ end) = _ => destruct X as [[ip s2]|] eqn:Eint
  end; [|discriminate].
  assert (S2 : suffix s2 b).
  { destruct b as [|c1 r1]; [discriminate|].
    destruct ((49 <=? c1) && (c1 <=? 57)).
    - destruct (span_digits r1) as [ds rest] eqn:Esp. injection Eint as _ <-.
      apply (suffix_trans _ r1); [exists ds; now apply span_digits_app | apply suffix_tail].
    - destruct (c1 =? 48); [|discriminate]. injection Eint as _ <-.
      apply suffix_tail. }
  clear Eint. cbv zeta in H.
  destruct_let_pair H.
  assert (S3 : suffix b0 s2).
  { destruct s2 as [|d [|e r2]]; try (injection Ep as _ <-; apply suffix_refl).
    destruct ((d =? 46) && is_digit e); injection Ep as _ <-; [|apply suffix_refl].
    apply (suffix_trans _ (e :: r2)); [apply span_digits_suffix | apply suffix_tail]. }
  clear Ep.
  destruct_let_pair H.
  assert (S4 : suffix b1 b0).
  { destruct b0 as [|e r3]; [injection Ep as _ <-; apply suffix_refl|].
    destruct ((e =? 101) || (e =? 69)); [|injection Ep as _ <-; apply suffix_refl].
    set (r4 := match r3 with
               | sg :: r' => if (sg =? 45) || (sg =? 43) then r' else r3
               | [] => r3 end) in Ep.
    assert (S4' : suffix r4 r3).
    { subst r4. destruct r3 as [|sg r']; [apply suffix_refl|].
      destruct ((sg =? 45) || (sg =? 43)); [apply suffix_tail | apply suffix_refl]. }
    destruct (span_digits r4) as [[|dg ds] r5] eqn:Esp; injection Ep as _ <-;
      [apply suffix_refl|].
    apply (suffix_trans _ r4); [exists (dg :: ds); now apply span_digits_app|].
    apply (suffix_trans _ r3); [exact S4'|]. apply suffix_tail. }
  clear Ep.
  match type of H with
  | (if ?B then _ else _) = _ =>
    destruct B; [| destruct (Nat.ltb int_max_str_digits _); [discriminate|]];
    injection H as <- <-; (split; [|exact I])
  end.
  all: apply (suffix_trans _ b0); [exact S4|].
  all: apply (suffix_trans _ s2); [exact S3|].
  all: apply (suffix_trans _ b); [exact S2 | exact S1].
Qed.

Lemma parse_inv : forall f,
  (forall n s v r, Forall text_char s -> scan_once f n s = Ok (v, r) ->
     top_ok v /\ Forall text_char r) /\
  (forall n s acc v r, Forall text_char s -> dict_ok acc -> object_items f n s acc = Ok (v, r) ->
     top_ok v /\ Forall text_char r) /\
  (forall n s acc v r, Forall text_char s -> array_items f n s acc = Ok (v, r) ->
     top_ok v /\ Forall text_char r).
Proof.
  induction f as [|f [IHs [IHo IHa]]];
    [repeat split; intros; discriminate|].
  split; [|split].
  - intros n s v r Hs H. destruct s as [|c r0]; [discriminate|].
    pose proof (Forall_inv_tail Hs) as Hr0.
    cbn [scan_once] in H.
    destruct (c =? 34).
    { destruct (scanstring r0) as [[str r']|] eqn:Esc; [|discriminate].
      injection H as <- <-.
      destruct (scanstring_inv _ r0 str r' (le_n _) Hr0 Esc) as [Hok [Hr _]].
      split; assumption. }
    pose proof (skip_ws_forall _ r0 Hr0) as Hw.
    destruct (c =? 123).
    { destruct (Nat.ltb n nesting_limit); [|discriminate].
      destruct (skip_ws r0) as [|e r'] eqn:Ew.
      - exact (IHo (S n) [] [] v r (Forall_nil _) (conj (NoDup_nil _) (Forall_nil _)) H).
      - destruct (e =? 125).
        + injection H as <- <-. split; [split; constructor | exact (Forall_inv_tail Hw)].
        + exact (IHo (S n) _ [] v r Hw (conj (NoDup_nil _) (Forall_nil _)) H). }
    destruct (c =? 91).
    { destruct (Nat.ltb n nesting_limit); [|discriminate].
      destruct (skip_ws r0) as [|e r'] eqn:Ew.
      - exact (IHa (S n) [] [] v r (Forall_nil _) H).
      - destruct (e =? 93).
        + injection H as <- <-. split; [exact I | exact (Forall_inv_tail Hw)].
        + exact (IHa (S n) _ [] v r Hw H). }
    repeat match type of H with
    | (if prefixb ?p ?q then Ok (_, skipn ?n _) else _) = _ =>
      let E := fresh "Epre" in
      destruct (prefixb p q) eqn:E;
      [injection H as <- <-; split; [exact I | exact (skipn_forall _ n _ Hs)] |]
    end.
    destruct (match_number_inv _ _ _ H) as [Hsuf Hv].
    split; [exact Hv | exact (suffix_forall _ _ _ Hsuf Hs)].
  - intros n s acc v r Hs Hacc H. destruct s as [|c r0]; [discriminate|].
    pose proof (Forall_inv_tail Hs) as Hr0.
    cbn [object_items] in H.
    destruct (c =? 34); [|discriminate].
    destruct (scanstring r0) as [[key r1]|] eqn:Esc; [|discriminate].
    destruct (scanstring_inv _ r0 key r1 (le_n _) Hr0 Esc) as [Hkey [Hr1 _]].
    pose proof (skip_ws_forall _ r1 Hr1) as Hw1.
    destruct (skip_ws r1) as [|d r2] eqn:Ew1; [discriminate|].
    destruct (d =? 58); [|discriminate].
    pose proof (skip_ws_forall _ r2 (Forall_inv_tail Hw1)) as Hw2.
    destruct (scan_once f n (skip_ws r2)) as [[x r3]|e] eqn:Ev; [|discriminate].
    destruct (IHs n _ x r3 Hw2 Ev) as [Hx Hr3].
    pose proof (dict_set_ok acc key x Hacc Hkey (top_val_ok x Hx)) as Hacc'.
    pose proof (skip_ws_forall _ r3 Hr3) as Hw3.
    destruct (skip_ws r3) as [|e r4] eqn:Ew3; [discriminate|].
    destruct (e =? 125).
    + injection H as <- <-. split; [exact Hacc' | exact (Forall_inv_tail Hw3)].
    + destruct (e =? 44); [|discriminate].
      exact (IHo n _ _ v r (skip_ws_forall _ r4 (Forall_inv_tail Hw3)) Hacc' H).
  - intros n s acc v r Hs H. cbn [array_items] in H.
    destruct (scan_once f n s) as [[x r1]|e] eqn:Ev; [|discriminate].
    destruct (IHs n _ x r1 Hs Ev) as [_ Hr1].
    pose proof (skip_ws_forall _ r1 Hr1) as Hw1.
    destruct (skip_ws r1) as [|e r'] eqn:Ew1; [discriminate|].
    destruct (e =? 93).
    + injection H as <- <-. split; [exact I | exact (Forall_inv_tail Hw1)].
    + destruct (e =? 44); [|discriminate].
      exact (IHa n _ _ v r (skip_ws_forall _ r' (Forall_inv_tail Hw1)) H).
Qed.

(** ** [json.dumps] of a keyring *)

(** A keyring as the program sees it: labels mapped to str addresses. *)
Definition str_valued (d : dict) : Prop := Forall (fun kv => exists s, snd kv = PStr s) d.

Definition printable (c : Z) : Prop := 32 <= c <= 126.

Lemma hexdig_printable : forall x, printable (hexdig (x mod 16)).
Proof.
  intro x. pose proof (Z.mod_pos_bound x 16 ltac:(lia)). unfold printable, hexdig.
  destruct (x mod 16 <? 10) eqn:E; zbool; lia.
Qed.

Lemma u_escape_printable : forall x, Forall printable (u_escape x).
Proof.
  intro x. unfold u_escape.
  repeat constructor; try apply hexdig_printable; unfold printable; lia.
Qed.

Lemma ascii_escape_printable : forall c, Forall printable (ascii_escape_char c).
Proof.
  intro c. unfold ascii_escape_char.
  destruct ((32 <=? c) && (c <=? 126) && negb (c =? 92) && negb (c =? 34)) eqn:E1.
  { zbool. constructor; [unfold printable; lia | constructor]. }
  repeat (destruct (c =? _); [repeat constructor; unfold printable; lia|]).
  destruct (65536 <=? c).
  - apply Forall_app; split; apply u_escape_printable.
  - apply u_escape_printable.
Qed.

Lemma encode_str_printable : forall s, Forall printable (encode_str s).
Proof.
  intro s. unfold encode_str. apply Forall_app; split; [constructor; [unfold printable; lia | constructor]|].
  apply Forall_app; split; [|constructor; [unfold printable; lia | constructor]].
  induction s as [|c r IH]; [constructor|]. simpl. apply Forall_app. split; [apply ascii_escape_printable | exact IH].
Qed.

Lemma join_forall : forall (P : Z -> Prop) sep l, Forall P sep -> Forall (Forall P) l ->
  Forall P (join sep l).
Proof.
  intros P sep l Hs. induction l as [|x [|y r] IH]; intro Hl; [constructor| |].
  - now inversion Hl.
  - inversion Hl as [|? ? Hx Hr]; subst. cbn [join].
    apply Forall_app; split; [exact Hx|]. apply Forall_app; split; [exact Hs|]. now apply IH.
Qed.

Lemma dumps_dict_printable : forall d, str_valued d ->
  Forall printable (dumps (PDict d)).
Proof.
  intros d Hd. cbn [dumps].
  apply Forall_app; split; [constructor; [unfold printable; lia | constructor]|].
  apply Forall_app; split; [|constructor; [unfold printable; lia | constructor]].
  apply join_forall; [repeat constructor; unfold printable; cbn; lia|].
  apply Forall_map. eapply Forall_impl; [|exact Hd].
  intros [k x] [s Hx]. simpl in Hx. subst x.
  apply Forall_app; split; [apply encode_str_printable|].
  apply Forall_app; split; [repeat constructor; unfold printable; cbn; lia|].
  apply encode_str_printable.
Qed.

Lemma utf8_encode_ascii : forall s, Forall printable s -> utf8_encode s = Some s.
Proof.
  induction s as [|c r IH]; intro H; [reflexivity|].
  inversion H as [|? ? Hc Hr]; subst. unfold printable in Hc. cbn [utf8_encode].
  unfold utf8_encode_char. replace (c <? 128) with true by (symmetry; apply Z.ltb_lt; lia).
  now rewrite IH.
Qed.

Lemma utf8_decode_ascii : forall s, Forall printable s -> utf8_decode s = Some s.
Proof.
  induction s as [|c r IH]; intro H; [reflexivity|].
  inversion H as [|? ? Hc Hr]; subst. unfold printable in Hc. cbn [utf8_decode].
  replace (c <? 128) with true by (symmetry; apply Z.ltb_lt; lia).
  now rewrite IH.
Qed.

Lemma universal_newlines_printable : forall s, Forall printable s -> universal_newlines s = s.
Proof.
  induction s as [|c r IH]; intro H; [reflexivity|].
  inversion H as [|? ? Hc Hr]; subst. unfold printable in Hc. cbn [universal_newlines].
  replace (c =? 13) with false by (symmetry; apply Z.eqb_neq; lia).
  now rewrite IH.
Qed.

Lemma dict_set_fresh : forall acc k v, ~ In k (map fst acc) ->
  dict_set acc k v = acc ++ [(k, v)].
Proof.
  induction acc as [|[k' v'] r IH]; intros k v Hk; [reflexivity|].
  simpl in Hk. cbn [dict_set].
  destruct (teqb k k') eqn:E.
  - apply teqb_eq in E. subst. exfalso. apply Hk. now left.
  - simpl. f_equal. apply IH. intro H. apply Hk. now right.
Qed.

(** One entry [key: value] of [json.dumps] of a dict. *)
Definition dumps_item (kv : text * pyval) : text :=
  let '(k, x) := kv in encode_str k ++ t ": " ++ dumps x.

Lemma dumps_dict_eq : forall d,
  dumps (PDict d) = [123] ++ join (t ", ") (map dumps_item d) ++ [125].
Proof. reflexivity. Qed.

Lemma object_items_entry : forall f n k s rest acc, ok_str k -> ok_str s ->
  object_items (S (S f)) n
    (34 :: flat_map ascii_escape_char k ++ 34 :: 58 :: 32 :: 34 ::
     flat_map ascii_escape_char s ++ 34 :: rest) acc
  = match skip_ws rest with
    | e :: r4 =>
      if e =? 125 then Ok (PDict (dict_set acc k (PStr s)), r4)
      else if e =? 44 then object_items (S f) n (skip_ws r4) (dict_set acc k (PStr s))
      else Raise JSONDecodeError
    | [] => Raise JSONDecodeError
    end.
Proof.
  intros f n k s rest acc Hk Hs.
  remember (S f) as g eqn:Hg.
  cbn [object_items]. rewrite Z.eqb_refl, scanstring_encode by exact Hk.
  remember (flat_map ascii_escape_char s) as S' eqn:HS.
  simpl skip_ws. cbv beta iota. rewrite Z.eqb_refl. simpl skip_ws. subst g. cbn [scan_once]. rewrite Z.eqb_refl.
  subst S'. rewrite scanstring_encode by exact Hs.
  reflexivity.
Qed.
Lemma dumps_item_shape : forall k s R,
  dumps_item (k, PStr s) ++ R
  = 34 :: flat_map ascii_escape_char k ++ 34 :: 58 :: 32 :: 34 ::
    flat_map ascii_escape_char s ++ 34 :: R.
Proof.
  intros k s R. unfold dumps_item. cbn [dumps]. unfold encode_str.
  rewrite <- !app_assoc. reflexivity.
Qed.

Lemma join_items_head : forall kv d, exists rest,
  join (t ", ") (map dumps_item (kv :: d)) = 34 :: rest.
Proof.
  intros [k x] d. destruct d as [|kv2 d]; cbn [map join]; unfold dumps_item at 1;
    unfold encode_str; cbn [app]; eauto.
Qed.

Lemma object_items_dumps : forall d acc f n tail,
  d <> [] -> (List.length d < f)%nat ->
  Forall (fun kv => ok_str (fst kv) /\ exists s, snd kv = PStr s /\ ok_str s) d ->
  NoDup (map fst (acc ++ d)) ->
  object_items f n (join (t ", ") (map dumps_item d) ++ 125 :: tail) acc
    = Ok (PDict (acc ++ d), tail).
Proof.
  induction d as [|[k x] d IH]; intros acc f n tail Hne Hf Hd Hnd; [congruence|].
  inversion Hd as [|? ? [Hk [s [Hx Hs]]] Hd']; subst. simpl in Hx. subst x. simpl fst in Hk.
  destruct f as [|[|f]]; [simpl in Hf; lia | simpl in Hf; lia|].
  assert (Hfresh : ~ In k (map fst acc)).
  { rewrite map_app in Hnd. apply NoDup_remove_2 in Hnd. intro H. apply Hnd.
    apply in_or_app. now left. }
  destruct d as [|kv2 d'].
  - cbn [map join]. rewrite dumps_item_shape, object_items_entry by assumption.
    simpl skip_ws. cbv beta iota. rewrite Z.eqb_refl, dict_set_fresh by exact Hfresh.
    reflexivity.
  - change (map dumps_item ((k, PStr s) :: kv2 :: d'))
      with (dumps_item (k, PStr s) :: map dumps_item (kv2 :: d')).
    change (join (t ", ") (dumps_item (k, PStr s) :: map dumps_item (kv2 :: d')))
      with (dumps_item (k, PStr s) ++ t ", " ++ join (t ", ") (map dumps_item (kv2 :: d'))).
    rewrite <- !app_assoc, dumps_item_shape, object_items_entry by assumption.
    destruct (join_items_head kv2 d') as [rest Hrest].
    set (J := join (t ", ") (map dumps_item (kv2 :: d'))) in *.
    change (t ", " ++ J ++ 125 :: tail) with (44 :: 32 :: J ++ 125 :: tail).
    assert (E44 : skip_ws (44 :: 32 :: J ++ 125 :: tail) = 44 :: 32 :: J ++ 125 :: tail)
      by reflexivity.
    assert (E32 : skip_ws (32 :: J ++ 125 :: tail) = J ++ 125 :: tail)
      by (rewrite Hrest; reflexivity).
    rewrite E44. cbv beta iota.
    replace (44 =? 125) with false by reflexivity. rewrite Z.eqb_refl, E32.
    rewrite dict_set_fresh by exact Hfresh.
    replace (acc ++ (k, PStr s) :: kv2 :: d') with ((acc ++ [(k, PStr s)]) ++ kv2 :: d')
      by now rewrite <- app_assoc.
    apply IH; [discriminate | simpl in Hf |- *; lia | exact Hd' |].
    now rewrite <- app_assoc.
Qed.

Lemma join_length : forall sep l, Forall (fun x : text => x <> []) l ->
  (List.length l <= List.length (join sep l))%nat.
Proof.
  intros sep l. induction l as [|x [|y r] IH]; intro H; [simpl; lia| |].
  - inversion H as [|? ? Hx _]; subst. destruct x; [congruence | simpl; lia].
  - inversion H as [|? ? Hx Hr]; subst. cbn [join]. specialize (IH Hr).
    rewrite !length_app. destruct x; [congruence|]. simpl in *. lia.
Qed.

Lemma entries_ok : forall d, dict_ok d -> str_valued d ->
  Forall (fun kv => ok_str (fst kv) /\ exists s, snd kv = PStr s /\ ok_str s) d.
Proof.
  intros d [_ Hf] Hs. induction d as [|[k x] d IH]; [constructor|].
  inversion Hf as [|? ? [Hk Hx] Hf']; inversion Hs as [|? ? [s Hxs] Hs']; subst.
  simpl in *. subst x. constructor; [|now apply IH].
  split; [exact Hk|]. exists s. split; [reflexivity | exact Hx].
Qed.

Lemma json_loads_dumps : forall d, dict_ok d -> str_valued d ->
  json_loads (dumps (PDict d)) = Ok (PDict d).
Proof.
  intros d Hok Hs. pose proof (entries_ok d Hok Hs) as He.
  rewrite dumps_dict_eq. unfold json_loads.
  replace (prefixb [65279] ([123] ++ join (t ", ") (map dumps_item d) ++ [125])) with false
    by reflexivity.
  destruct d as [|kv d'].
  { reflexivity. }
  set (n := List.length ([123] ++ join (t ", ") (map dumps_item (kv :: d')) ++ [125])).
  replace (2 * S n)%nat with (S (S (2 * n)))%nat by lia.
  assert (Hn : (List.length (kv :: d') < n)%nat).
  { subst n. rewrite !length_app.
    change (List.length [123]) with 1%nat. change (List.length [125]) with 1%nat.
    pose proof (join_length (t ", ") (map dumps_item (kv :: d'))) as Hj.
    rewrite length_map in Hj.
    enough (List.length (kv :: d') <= List.length (join (t ", ") (map dumps_item (kv :: d'))))%nat
      by lia.
    apply Hj. apply Forall_map. apply Forall_forall. intros [k x] _.
    unfold dumps_item, encode_str. cbn [app]. discriminate. }
  destruct (join_items_head kv d') as [rest Hrest].
  assert (Hw : skip_ws ([123] ++ join (t ", ") (map dumps_item (kv :: d')) ++ [125])
               = 123 :: join (t ", ") (map dumps_item (kv :: d')) ++ [125]) by reflexivity.
  rewrite Hw. clearbody n.
  cbn [scan_once]. cbv beta iota.
  replace (123 =? 34) with false by reflexivity. rewrite Z.eqb_refl.
  change (Nat.ltb 0 nesting_limit) with true. cbv beta iota.
  assert (Hw' : skip_ws (join (t ", ") (map dumps_item (kv :: d')) ++ [125])
                = join (t ", ") (map dumps_item (kv :: d')) ++ [125])
    by (rewrite Hrest; reflexivity).
  rewrite Hw', Hrest. cbn [app]. cbv beta iota. replace (34 =? 125) with false by reflexivity.
  change (34 :: rest ++ [125]) with ((34 :: rest) ++ [125]).
  rewrite <- Hrest. rewrite (object_items_dumps (kv :: d') [] (S (2 * n)) 1 [])
    by (try discriminate; try lia; try exact He; destruct Hok; assumption).
  reflexivity.
Qed.

(** ** Loading, saving *)

Lemma read_keyring_file_ok : forall f v, read_keyring_file f = Ok v -> top_ok v.
Proof.
  intros [bytes|] v H; [|injection H as <-; split; constructor].
  cbn [read_keyring_file] in H.
  destruct (utf8_decode bytes) as [txt|] eqn:Ed; [|discriminate].
  pose proof (universal_newlines_chars _
    (utf8_decode_chars (List.length bytes) bytes txt (le_n _) Ed)) as Hc.
  destruct (json_loads (universal_newlines txt)) as [v'|e] eqn:Ej.
  - injection H as <-. unfold json_loads in Ej.
    destruct (prefixb [65279] (universal_newlines txt)); [discriminate|].
    destruct (scan_once _ _ _) as [[x r]|e] eqn:Es; [|discriminate].
    destruct (skip_ws r); [|discriminate]. injection Ej as <-.
    exact (proj1 (proj1 (parse_inv _) _ _ _ _ (skip_ws_forall _ _ Hc) Es)).
  - destruct e; try discriminate. injection H as <-. split; constructor.
Qed.

Lemma save_keyring_dict : forall w d, dict_ok d -> str_valued d ->
  save_keyring (PDict d) w
  = (Ok (PDict d),
     mkWorld (home w) (fs_write (fs w) (keyring_path (home w)) (dumps (PDict d))) (out w)).
Proof.
  intros w d Hok Hs. unfold save_keyring, bind, get_home, put_file, ret.
  now rewrite (utf8_encode_ascii _ (dumps_dict_printable d Hs)).
Qed.

Lemma read_dumps_dict : forall d, dict_ok d -> str_valued d ->
  read_keyring_file (Some (dumps (PDict d))) = Ok (PDict d).
Proof.
  intros d Hok Hs. pose proof (dumps_dict_printable d Hs) as Hp.
  cbn [read_keyring_file]. rewrite (utf8_decode_ascii _ Hp).
  rewrite (universal_newlines_printable _ Hp). now rewrite json_loads_dumps.
Qed.

(** ** Running the decorators *)

(** The world after [subprocess.run('mkdir -p ' + DATA_DIR, shell=True)]. *)
Definition after_mkdir (w : world) : world :=
  mkWorld (home w) (fs w) (out w ++ [EShell (t "mkdir -p " ++ data_dir (home w))]).

Lemma open_keyring_run : forall write fn args kw w k,
  has_kw "keyring" kw = false ->
  keyring_of w = Ok k ->
  open_keyring write fn args kw w
  = (result <- fn args (kw ++ [("keyring"%string, k)]) ;;
     if write then save_keyring result else ret result) (after_mkdir w).
Proof.
  intros write fn args kw w k Hkw Hk. unfold keyring_of in Hk.
  unfold open_keyring, bind at 1, get_home. unfold bind at 1, shell, emit.
  unfold bind at 1, read_keyring, bind at 1, get_home, bind at 1, get_file, lift.
  cbn [home fs out]. rewrite Hk, Hkw. reflexivity.
Qed.

Lemma nested_keyring_call_raises : forall write fn args kw w k,
  has_kw "keyring" kw = true ->
  keyring_of w = Ok k ->
  open_keyring write fn args kw w
  = (Raise (TypeError "got multiple values for keyword argument 'keyring'"), after_mkdir w).
Proof.
  intros write fn args kw w k Hkw Hk. unfold keyring_of in Hk.
  unfold open_keyring, bind at 1, get_home. unfold bind at 1, shell, emit.
  unfold bind at 1, read_keyring, bind at 1, get_home, bind at 1, get_file, lift.
  cbn [home fs out]. rewrite Hk, Hkw. reflexivity.
Qed.

Lemma keyring_of_after_mkdir : forall w, keyring_of (after_mkdir w) = keyring_of w.
Proof. reflexivity. Qed.

Definition label_message (exists_ : bool) (label : pyval) : text :=
  if exists_ then py_str label ++ t " is not a valid label!"
  else t "The label " ++ py_str label ++ t " is already registered!".

Definition count_message (min_args : nat) : text :=
  t "This action requires " ++ int_repr (Z.of_nat min_args) ++ t " arguments!".

Lemma validate_label_run : forall e fn label rest k w b,
  py_contains label k = Ok b ->
  validate_label e fn (label :: rest) [("keyring"%string, k)] w
  = if Bool.eqb b e then fn (label :: rest) [("keyring"%string, k)] w
    else (_ <- print (label_message e label) ;; ret k) w.
Proof.
  intros e fn label rest k w b Hb. unfold validate_label, bind, lift.
  cbn -[py_contains print ret]. rewrite Hb. now destruct (Bool.eqb b e).
Qed.

Lemma validate_label_nolabel : forall e fn k w,
  validate_label e fn [] [("keyring"%string, k)] w
  = (Raise (TypeError "validate_label_fn() missing 1 required positional argument: 'label'"), w).
Proof. reflexivity. Qed.

Lemma required_argument_count_run : forall n fn args kw w,
  required_argument_count n fn args kw w
  = if Nat.ltb (List.length args) n then (_ <- print (count_message n) ;; ret PNone) w
    else fn args kw w.
Proof.
  intros n fn args kw w. unfold required_argument_count.
  now destruct (Nat.ltb (List.length args) n).
Qed.

Lemma py_contains_dict : forall l d, py_contains (PStr l) (PDict d) = Ok (dict_mem d l).
Proof. reflexivity. Qed.

Lemma invoke_command : forall h files name f rest,
  lookup_command name commands = Some f ->
  invoke h files (t "sw" :: name :: rest) = (_ <- f (map PStr rest) [] ;; ret tt) (mkWorld h files []).
Proof. intros h files name f rest Hf. unfold invoke, main. now rewrite Hf. Qed.

Definition mkdir_event (h : text) : event := EShell (t "mkdir -p " ++ data_dir h).

Lemma lookup_add : lookup_command (t "add") commands = Some add_key.
Proof. reflexivity. Qed.
Lemma lookup_rename : lookup_command (t "rename") commands = Some rename_key.
Proof. reflexivity. Qed.
Lemma lookup_remove : lookup_command (t "remove") commands = Some remove_key.
Proof. reflexivity. Qed.
Lemma lookup_connect : lookup_command (t "connect") commands = Some ssh_connect.
Proof. reflexivity. Qed.
Lemma lookup_run : lookup_command (t "run") commands = Some ssh_run.
Proof. reflexivity. Qed.
Lemma lookup_import : lookup_command (t "import") commands = Some import_keyring.
Proof. reflexivity. Qed.

(** The keyring a run starts from is well formed. *)
Lemma loaded_dict_ok : forall w d, keyring_of w = Ok (PDict d) -> dict_ok d.
Proof. intros w d H. exact (read_keyring_file_ok _ _ H). Qed.

Lemma keyring_of_saved : forall h files d o, dict_ok d -> str_valued d ->
  keyring_of (mkWorld h (fs_write files (keyring_path h) (dumps (PDict d))) o) = Ok (PDict d).
Proof.
  intros h files d o Hok Hs. unfold keyring_of. cbn [fs home].
  rewrite fs_lookup_write. now apply read_dumps_dict.
Qed.

(** [sw add LABEL ...] with a registered label: the message, then the
    loaded keyring saved again. *)
Lemma add_registered_run : forall h files d l rest,
  keyring_of (mkWorld h files []) = Ok (PDict d) -> str_valued d -> dict_mem d l = true ->
  invoke h files (t "sw" :: t "add" :: l :: rest)
  = (Ok tt, mkWorld h (fs_write files (keyring_path h) (dumps (PDict d)))
                    [mkdir_event h; EPrint (label_message false (PStr l))]).
Proof.
  intros h files d l rest Hk Hs Hl. pose proof (loaded_dict_ok _ _ Hk) as Hok.
  rewrite (invoke_command _ _ _ _ _ lookup_add).
  unfold bind at 1. unfold add_key at 1.
  rewrite (open_keyring_run _ _ _ [] _ _ eq_refl Hk).
  unfold bind at 1. cbn [app map].
  rewrite (validate_label_run _ _ _ _ _ _ _ (py_contains_dict l d)), Hl.
  cbn [Bool.eqb]. unfold bind at 1, print, emit, ret. cbn [home fs out after_mkdir].
  rewrite save_keyring_dict by assumption. reflexivity.
Qed.

(** [sw remove LABEL ...] with an unknown label. *)
Lemma remove_unknown_run : forall h files d l rest,
  keyring_of (mkWorld h files []) = Ok (PDict d) -> str_valued d -> dict_mem d l = false ->
  invoke h files (t "sw" :: t "remove" :: l :: rest)
  = (Ok tt, mkWorld h (fs_write files (keyring_path h) (dumps (PDict d)))
                    [mkdir_event h; EPrint (label_message true (PStr l))]).
Proof.
  intros h files d l rest Hk Hs Hl. pose proof (loaded_dict_ok _ _ Hk) as Hok.
  rewrite (invoke_command _ _ _ _ _ lookup_remove).
  unfold bind at 1. unfold remove_key at 1.
  rewrite (open_keyring_run _ _ _ [] _ _ eq_refl Hk).
  unfold bind at 1. cbn [app map].
  rewrite (validate_label_run _ _ _ _ _ _ _ (py_contains_dict l d)), Hl.
  cbn [Bool.eqb]. unfold bind at 1, print, emit, ret. cbn [home fs out after_mkdir].
  rewrite save_keyring_dict by assumption. reflexivity.
Qed.

Lemma save_keyring_none : forall w,
  save_keyring PNone w
  = (Ok PNone, mkWorld (home w) (fs_write (fs w) (keyring_path (home w)) (t "null")) (out w)).
Proof. intros [h f o]. reflexivity. Qed.

(** The argument lists on which [required_argument_count] fails once the
    label check (if any) has passed. *)
Definition count_failure (d : dict) (cmd : text) (args : list text) : Prop :=
  (cmd = t "add" /\ exists l, args = [l] /\ dict_mem d l = false) \/
  (cmd = t "rename" /\ (List.length args < 2)%nat) \/
  (cmd = t "run" /\ exists l, args = [l] /\ dict_mem d l = true).

Lemma count_failure_run : forall h files d cmd args,
  keyring_of (mkWorld h files []) = Ok (PDict d) -> count_failure d cmd args ->
  invoke h files (t "sw" :: cmd :: args)
  = (Ok tt, mkWorld h (fs_write files (keyring_path h) (t "null"))
                    [mkdir_event h; EPrint (count_message 2)]).
Proof.
  intros h files d cmd args Hk [[-> [l [-> Hl]]] | [[-> Hlen] | [-> [l [-> Hl]]]]].
  - rewrite (invoke_command _ _ _ _ _ lookup_add).
    unfold bind at 1. unfold add_key at 1.
    rewrite (open_keyring_run _ _ _ [] _ _ eq_refl Hk).
    unfold bind at 1. cbn [app map].
    rewrite (validate_label_run _ _ _ _ _ _ _ (py_contains_dict l d)), Hl.
    cbn [Bool.eqb]. rewrite required_argument_count_run. reflexivity.
  - rewrite (invoke_command _ _ _ _ _ lookup_rename).
    unfold bind at 1. unfold rename_key at 1.
    rewrite (open_keyring_run _ _ _ [] _ _ eq_refl Hk).
    unfold bind at 1. cbn [app]. rewrite required_argument_count_run.
    rewrite length_map. replace (Nat.ltb (List.length args) 2) with true
      by (symmetry; apply Nat.ltb_lt; exact Hlen).
    reflexivity.
  - rewrite (invoke_command _ _ _ _ _ lookup_run).
    unfold bind at 1. unfold ssh_run at 1.
    rewrite (open_keyring_run _ _ _ [] _ _ eq_refl Hk).
    unfold bind at 1. cbn [app map].
    rewrite (validate_label_run _ _ _ _ _ _ _ (py_contains_dict l d)), Hl.
    cbn [Bool.eqb]. rewrite required_argument_count_run. reflexivity.
Qed.

Lemma keyring_of_null : forall h files o,
  keyring_of (mkWorld h (fs_write files (keyring_path h) (t "null")) o) = Ok PNone.
Proof. intros. unfold keyring_of. cbn [fs home]. now rewrite fs_lookup_write. Qed.

Lemma dict_mem_get : forall d l, dict_mem d l = true -> exists v, dict_get d l = Some v.
Proof. intros d l H. unfold dict_mem in H. destruct (dict_get d l) as [v|]; [eauto|discriminate]. Qed.

(** [sw rename A B] with [A] registered: the inner [add_key] call raises. *)
Lemma rename_registered_run : forall h files d a b,
  keyring_of (mkWorld h files []) = Ok (PDict d) -> dict_mem d a = true ->
  invoke h files [t "sw"; t "rename"; a; b]
  = (Raise (TypeError "got multiple values for keyword argument 'keyring'"),
     mkWorld h files [mkdir_event h; mkdir_event h]).
Proof.
  intros h files d a b Hk Ha. destruct (dict_mem_get _ _ Ha) as [v Hv].
  rewrite (invoke_command _ _ _ _ _ lookup_rename).
  unfold bind at 1. unfold rename_key at 1.
  rewrite (open_keyring_run _ _ _ [] _ _ eq_refl Hk).
  unfold bind at 1. cbn [app map]. rewrite required_argument_count_run.
  cbn [List.length]. change (Nat.ltb 2 2) with false. cbv beta iota.
  unfold pyfun, bind at 1, lift.
  cbn [bind_params assign_pos assign_kw slot_get slot_set String.eqb Ascii.eqb Bool.eqb
       all_filled option_map List.length].
  change (Nat.ltb 3 2) with false. cbv beta iota.
  unfold rename_key_body, bind at 1, lift. cbn [py_getitem]. rewrite Hv.
  unfold bind at 1.
  unfold add_key at 1. rewrite (nested_keyring_call_raises _ _ _ [("keyring"%string, PDict d)] _ (PDict d) eq_refl); [reflexivity|].
  now rewrite keyring_of_after_mkdir.
Qed.

(** [sw import FILE ...]: [import_keyring(keyring, filepath)] gets [FILE]
    as [keyring] and then the keyword [keyring] as well. *)
Lemma import_run : forall h files k p rest,
  keyring_of (mkWorld h files []) = Ok k ->
  invoke h files (t "sw" :: t "import" :: p :: rest)
  = (Raise (TypeError "import_keyring() got multiple values for argument 'keyring'"),
     mkWorld h files [mkdir_event h]).
Proof.
  intros h files k p rest Hk.
  rewrite (invoke_command _ _ _ _ _ lookup_import).
  unfold bind at 1. unfold import_keyring at 1.
  rewrite (open_keyring_run _ _ _ [] _ _ eq_refl Hk).
  unfold bind at 1. cbn [app map]. rewrite required_argument_count_run.
  cbn [List.length]. change (Nat.ltb (S (List.length (map PStr rest))) 1) with false.
  cbv beta iota. unfold pyfun, bind at 1, lift.
  cbn [bind_params assign_pos assign_kw slot_get String.eqb Ascii.eqb Bool.eqb].
  reflexivity.
Qed.

(** [sw CMD] with no label, for the commands under [validate_label]. *)
Lemma zero_args_run : forall h files k cmd,
  In cmd [t "add"; t "remove"; t "connect"; t "run"] ->
  keyring_of (mkWorld h files []) = Ok k ->
  invoke h files [t "sw"; cmd]
  = (Raise (TypeError "validate_label_fn() missing 1 required positional argument: 'label'"),
     mkWorld h files [mkdir_event h]).
Proof.
  intros h files k cmd Hin Hk.
  destruct Hin as [<-|[<-|[<-|[<-|[]]]]];
    [ rewrite (invoke_command _ _ _ _ _ lookup_add); unfold add_key at 1
    | rewrite (invoke_command _ _ _ _ _ lookup_remove); unfold remove_key at 1
    | rewrite (invoke_command _ _ _ _ _ lookup_connect); unfold ssh_connect at 1
    | rewrite (invoke_command _ _ _ _ _ lookup_run); unfold ssh_run at 1 ];
    unfold bind at 1; rewrite (open_keyring_run _ _ _ [] _ _ eq_refl Hk);
    unfold bind at 1; cbn [app map]; rewrite validate_label_nolabel; reflexivity.
Qed.





(** ** [{**a, **b}] is the right-biased union *)

Lemma dict_get_set : forall d k v k',
  dict_get (dict_set d k v) k' = if teqb k' k then Some v else dict_get d k'.
Proof.
  induction d as [|[k0 v0] r IH]; intros k v k'; simpl.
  - now destruct (teqb k' k).
  - destruct (teqb k k0) eqn:E; simpl.
    + apply teqb_eq in E as ->. now destruct (teqb k' k0).
    + rewrite IH. destruct (teqb k' k0) eqn:E0; [|reflexivity].
      apply teqb_eq in E0 as ->. destruct (teqb k0 k) eqn:E1; [|reflexivity].
      apply teqb_eq in E1 as ->. now rewrite teqb_refl in E.
Qed.

Lemma dict_get_notin : forall d k, ~ In k (map fst d) -> dict_get d k = None.
Proof.
  induction d as [|[k0 v0] r IH]; intros k Hk; simpl in *; [reflexivity|].
  destruct (teqb k k0) eqn:E.
  - apply teqb_eq in E as ->. tauto.
  - apply IH. tauto.
Qed.

Lemma dict_get_fold_set : forall l acc k, NoDup (map fst l) ->
  dict_get (fold_left (fun acc '(k, v) => dict_set acc k v) l acc) k
  = match dict_get l k with Some v => Some v | None => dict_get acc k end.
Proof.
  induction l as [|[k0 v0] l IH]; intros acc k Hnd; [reflexivity|].
  cbn [fold_left map fst] in *. inversion Hnd as [|? ? Hk0 Hl]; subst.
  rewrite IH by exact Hl. cbn [dict_get]. rewrite dict_get_set.
  destruct (teqb k k0) eqn:E; [|reflexivity].
  apply teqb_eq in E as ->. now rewrite dict_get_notin.
Qed.

Lemma py_merge_right_biased : forall da db, NoDup (map fst da) -> NoDup (map fst db) ->
  exists m, py_merge (PDict da) (PDict db) = Ok (PDict m) /\
    forall k, dict_get m k = match dict_get db k with Some v => Some v | None => dict_get da k end.
Proof.
  intros da db Ha Hb. eexists. split; [reflexivity|]. intro k.
  rewrite fold_left_app, dict_get_fold_set by exact Hb.
  rewrite dict_get_fold_set by exact Ha. now destruct (dict_get da k).
Qed.

(** The order of checks the specification gives for the guarded commands:
    (1) load, (2) the label check on the raw arguments, (3) the argument
    count, (4) the body; the result is then saved as [open_keyring] does. *)
Definition guarded_in_order (write must_exist : bool) (min_args : nat) (body : callable) : callable :=
  fun args kw =>
    h <- get_home ;;
    _ <- shell (t "mkdir -p " ++ data_dir h) ;;
    keyring <- read_keyring ;;
    result <-
      match args with
      | [] => raise (TypeError "validate_label_fn() missing 1 required positional argument: 'label'")
      | label :: _ =>
        does_exist <- lift (py_contains label keyring) ;;
        if negb (Bool.eqb does_exist must_exist)
        then _ <- print (label_message must_exist label) ;; ret keyring
        else if Nat.ltb (List.length args) min_args
        then _ <- print (count_message min_args) ;; ret PNone
        else body args (kw ++ [("keyring"%string, keyring)])
      end ;;
    if write then save_keyring result else ret result.

Lemma guarded_stack : forall write e n fn args w,
  open_keyring write (validate_label e (required_argument_count n fn)) args [] w
  = guarded_in_order write e n fn args [] w.
Proof.
  intros write e n fn args w.
  unfold open_keyring, guarded_in_order, validate_label, required_argument_count.
  unfold bind, get_home, shell, emit, read_keyring, get_file, lift, print, raise, ret.
  cbn -[read_keyring_file py_contains save_keyring data_dir keyring_path t label_message count_message].
  destruct (read_keyring_file _) as [k|x]; [|reflexivity].
  destruct args as [|label rest]; [reflexivity|].
  destruct (py_contains label k) as [b|x]; [|reflexivity].
  destruct b, e; reflexivity.
Qed.


(** ** More facts about dicts *)

Lemma teqb_neq : forall a b, a <> b -> teqb a b = false.
Proof. intros a b H. destruct (teqb a b) eqn:E; [apply teqb_eq in E; contradiction|reflexivity]. Qed.

Lemma dict_mem_false_notin : forall d l, dict_mem d l = false -> ~ In l (map fst d).
Proof.
  induction d as [|[k v] r IH]; intros l H Hin; [exact Hin|].
  unfold dict_mem in H. cbn [dict_get] in H. cbn [map fst In] in Hin.
  destruct (teqb l k) eqn:E; [discriminate|].
  destruct Hin as [->|Hin]; [now rewrite teqb_refl in E|].
  exact (IH l H Hin).
Qed.

Lemma dict_remove_forall : forall (P : text * pyval -> Prop) d l,
  Forall P d -> Forall P (dict_remove d l).
Proof.
  intros P. induction d as [|[k v] r IH]; intros l H; [constructor|].
  inversion H; subst. cbn [dict_remove]. destruct (teqb l k); auto.
Qed.

Lemma dict_remove_keys : forall d l k, In k (map fst (dict_remove d l)) -> In k (map fst d).
Proof.
  induction d as [|[k' v'] r IH]; intros l k H; [exact H|].
  cbn [dict_remove] in H. destruct (teqb l k'); cbn [map fst In] in *; [tauto|].
  destruct H as [->|H]; [tauto|right; exact (IH _ _ H)].
Qed.

Lemma dict_remove_ok : forall d l, dict_ok d -> dict_ok (dict_remove d l).
Proof.
  intros d l [Hnd Hf]. split; [|exact (dict_remove_forall _ _ _ Hf)]. clear Hf.
  induction d as [|[k v] r IH]; [constructor|].
  cbn [map fst] in Hnd. inversion Hnd as [|? ? Hk Hr]; subst.
  cbn [dict_remove]. destruct (teqb l k); [exact Hr|].
  cbn [map fst]. constructor; [|exact (IH Hr)].
  intro H. exact (Hk (dict_remove_keys _ _ _ H)).
Qed.

Lemma dict_get_remove : forall d l k, NoDup (map fst d) ->
  dict_get (dict_remove d l) k = if teqb k l then None else dict_get d k.
Proof.
  induction d as [|[k' v'] r IH]; intros l k Hnd.
  - cbn. now destruct (teqb k l).
  - cbn [map fst] in Hnd. inversion Hnd as [|? ? Hk Hr]; subst.
    cbn [dict_remove dict_get]. destruct (teqb l k') eqn:E.
    + apply teqb_eq in E as ->. destruct (teqb k k') eqn:E'; [|reflexivity].
      apply teqb_eq in E' as ->. now apply dict_get_notin.
    + cbn [dict_get]. rewrite IH by exact Hr.
      destruct (teqb k k') eqn:E'; [|reflexivity].
      apply teqb_eq in E' as ->. rewrite teqb_neq; [reflexivity|].
      intros ->. now rewrite teqb_refl in E.
Qed.

Lemma dict_remove_app_fresh : forall d l v, ~ In l (map fst d) ->
  dict_remove (d ++ [(l, v)]) l = d.
Proof.
  induction d as [|[k v'] r IH]; intros l v Hl.
  - cbn. now rewrite teqb_refl.
  - cbn [app dict_remove]. rewrite teqb_neq by (intros ->; apply Hl; now left).
    rewrite IH; [reflexivity|]. intro H; apply Hl; now right.
Qed.

Lemma dict_add_ok : forall d l a, dict_ok d -> dict_mem d l = false -> ok_str l -> ok_str a ->
  dict_ok (d ++ [(l, PStr a)]).
Proof.
  intros d l a Hok Hl Hsl Hsa. rewrite <- dict_set_fresh by exact (dict_mem_false_notin _ _ Hl).
  now apply dict_set_ok.
Qed.

Lemma str_valued_add : forall d l a, str_valued d -> str_valued (d ++ [(l, PStr a)]).
Proof. intros d l a H. apply Forall_app. split; [exact H|]. repeat constructor. now exists a. Qed.

(** ** More runs of the commands *)

(** [sw add LABEL ADDR] with a new label: [keyring[label] = addr], saved. *)
Lemma add_new_run : forall h files d l a,
  keyring_of (mkWorld h files []) = Ok (PDict d) -> dict_mem d l = false ->
  dict_ok (d ++ [(l, PStr a)]) -> str_valued (d ++ [(l, PStr a)]) ->
  invoke h files [t "sw"; t "add"; l; a]
  = (Ok tt, mkWorld h (fs_write files (keyring_path h) (dumps (PDict (d ++ [(l, PStr a)]))))
                    [mkdir_event h]).
Proof.
  intros h files d l a Hk Hl Hok Hs.
  rewrite (invoke_command _ _ _ _ _ lookup_add).
  unfold bind at 1. unfold add_key at 1.
  rewrite (open_keyring_run _ _ _ [] _ _ eq_refl Hk).
  unfold bind at 1. cbn [app map].
  rewrite (validate_label_run _ _ _ _ _ _ _ (py_contains_dict l d)), Hl.
  cbn [Bool.eqb]. rewrite required_argument_count_run.
  cbn [List.length]. change (Nat.ltb 2 2) with false. cbv beta iota.
  unfold pyfun, bind at 1, lift.
  cbn [bind_params assign_pos assign_kw slot_get slot_set String.eqb Ascii.eqb Bool.eqb
       all_filled option_map List.length].
  change (Nat.ltb 3 2) with false. cbv beta iota.
  unfold add_key_body, lift. cbn [py_setitem].
  rewrite dict_set_fresh by exact (dict_mem_false_notin _ _ Hl).
  rewrite save_keyring_dict by assumption. reflexivity.
Qed.

(** [sw remove LABEL] with a registered label: [keyring.pop(label)], saved. *)
Lemma remove_registered_run : forall h files d l,
  keyring_of (mkWorld h files []) = Ok (PDict d) -> str_valued d -> dict_mem d l = true ->
  invoke h files [t "sw"; t "remove"; l]
  = (Ok tt, mkWorld h (fs_write files (keyring_path h) (dumps (PDict (dict_remove d l))))
                    [mkdir_event h]).
Proof.
  intros h files d l Hk Hs Hl. pose proof (loaded_dict_ok _ _ Hk) as Hok.
  rewrite (invoke_command _ _ _ _ _ lookup_remove).
  unfold bind at 1. unfold remove_key at 1.
  rewrite (open_keyring_run _ _ _ [] _ _ eq_refl Hk).
  unfold bind at 1. cbn [app map].
  rewrite (validate_label_run _ _ _ _ _ _ _ (py_contains_dict l d)), Hl.
  cbn [Bool.eqb]. rewrite required_argument_count_run.
  cbn [List.length]. change (Nat.ltb 1 1) with false. cbv beta iota.
  unfold pyfun, bind at 1, lift.
  cbn [bind_params assign_pos assign_kw slot_get slot_set String.eqb Ascii.eqb Bool.eqb
       all_filled option_map List.length].
  change (Nat.ltb 2 1) with false. cbv beta iota.
  unfold remove_key_body, lift. cbn [py_pop]. rewrite Hl.
  rewrite save_keyring_dict; [reflexivity | now apply dict_remove_ok |].
  exact (dict_remove_forall _ _ _ Hs).
Qed.

(** The line [list_keys] prints for one entry. *)
Definition list_line (kv : text * pyval) : text :=
  let '(key, addr) := kv in key ++ [9] ++ py_str addr.

Lemma print_items_run : forall d w,
  print_items d w = (Ok tt, mkWorld (home w) (fs w) (out w ++ map (fun kv => EPrint (list_line kv)) d)).
Proof.
  induction d as [|[k a] r IH]; intros [h f o].
  - cbn. now rewrite app_nil_r.
  - cbn [print_items]. unfold bind at 1, print, emit. cbn [home fs out].
    rewrite IH. cbn [home fs out map list_line]. now rewrite <- app_assoc.
Qed.

(** [sw list] *)
Lemma list_run : forall h files d,
  keyring_of (mkWorld h files []) = Ok (PDict d) ->
  invoke h files [t "sw"; t "list"]
  = (Ok tt, mkWorld h files
              (mkdir_event h :: EPrint (t "LABEL" ++ [9] ++ t "ADDRESS")
                 :: map (fun kv => EPrint (list_line kv)) d)).
Proof.
  intros h files d Hk.
  rewrite (invoke_command _ _ (t "list") list_keys _ eq_refl).
  unfold bind at 1. unfold list_keys at 1.
  rewrite (open_keyring_run _ _ _ [] _ _ eq_refl Hk).
  unfold bind at 1. cbn [app map]. unfold pyfun, bind at 1, lift.
  cbn [bind_params assign_pos assign_kw slot_get slot_set String.eqb Ascii.eqb Bool.eqb
       all_filled option_map List.length].
  change (Nat.ltb 1 0) with false. cbv beta iota.
  unfold list_keys_body, bind at 1, print, emit. unfold bind at 1, lift. cbn [py_items].
  unfold bind at 1. rewrite print_items_run. reflexivity.
Qed.

(** [sw export] *)
Lemma export_run : forall h files d,
  keyring_of (mkWorld h files []) = Ok (PDict d) ->
  invoke h files [t "sw"; t "export"]
  = (Ok tt, mkWorld h files [mkdir_event h; EPrint (dumps (PDict d))]).
Proof.
  intros h files d Hk.
  rewrite (invoke_command _ _ (t "export") export_keyring _ eq_refl).
  unfold bind at 1. unfold export_keyring at 1.
  rewrite (open_keyring_run _ _ _ [] _ _ eq_refl Hk).
  unfold bind at 1. cbn [app map]. unfold pyfun, bind at 1, lift.
  cbn [bind_params assign_pos assign_kw slot_get slot_set String.eqb Ascii.eqb Bool.eqb
       all_filled option_map List.length].
  change (Nat.ltb 1 0) with false. cbv beta iota.
  reflexivity.
Qed.

(** [sw rename A B] with [A] not registered: [keyring[label]] raises. *)
Lemma rename_unknown_run : forall h files d a b,
  keyring_of (mkWorld h files []) = Ok (PDict d) -> dict_mem d a = false ->
  invoke h files [t "sw"; t "rename"; a; b] = (Raise KeyError, mkWorld h files [mkdir_event h]).
Proof.
  intros h files d a b Hk Ha.
  assert (Hv : dict_get d a = None)
    by (unfold dict_mem in Ha; destruct (dict_get d a); [discriminate|reflexivity]).
  rewrite (invoke_command _ _ _ _ _ lookup_rename).
  unfold bind at 1. unfold rename_key at 1.
  rewrite (open_keyring_run _ _ _ [] _ _ eq_refl Hk).
  unfold bind at 1. cbn [app map]. rewrite required_argument_count_run.
  cbn [List.length]. change (Nat.ltb 2 2) with false. cbv beta iota.
  unfold pyfun, bind at 1, lift.
  cbn [bind_params assign_pos assign_kw slot_get slot_set String.eqb Ascii.eqb Bool.eqb
       all_filled option_map List.length].
  change (Nat.ltb 3 2) with false. cbv beta iota.
  unfold rename_key_body, bind at 1, lift. cbn [py_getitem]. rewrite Hv. reflexivity.
Qed.

(** [sw import] with no file name. *)
Lemma import_noargs_run : forall h files k,
  keyring_of (mkWorld h files []) = Ok k ->
  invoke h files [t "sw"; t "import"]
  = (Ok tt, mkWorld h (fs_write files (keyring_path h) (t "null"))
                    [mkdir_event h; EPrint (count_message 1)]).
Proof.
  intros h files k Hk.
  rewrite (invoke_command _ _ _ _ _ lookup_import).
  unfold bind at 1. unfold import_keyring at 1.
  rewrite (open_keyring_run _ _ _ [] _ _ eq_refl Hk).
  unfold bind at 1. cbn [app map]. rewrite required_argument_count_run. reflexivity.
Qed.

Ltac run_guarded lk cmd Hk l d Hl :=
  rewrite (invoke_command _ _ _ _ _ lk);
  unfold bind at 1; unfold cmd at 1;
  rewrite (open_keyring_run _ _ _ [] _ _ eq_refl Hk);
  unfold bind at 1; cbn [app map];
  rewrite (validate_label_run _ _ _ _ _ _ _ (py_contains_dict l d)), Hl;
  cbn [Bool.eqb].

Ltac bind_call :=
  rewrite required_argument_count_run; cbn [List.length Nat.ltb Nat.leb]; cbv beta iota;
  unfold pyfun, bind at 1, lift;
  cbn [bind_params assign_pos assign_kw slot_get slot_set String.eqb Ascii.eqb Bool.eqb
       all_filled option_map List.length append];
  reflexivity.

(** More arguments than the parameters before [keyring]: the last
    positional argument binds to [keyring], which the keyword then repeats. *)
Lemma add_extra_args_run : forall h files d l a x rest,
  keyring_of (mkWorld h files []) = Ok (PDict d) -> dict_mem d l = false ->
  invoke h files (t "sw" :: t "add" :: l :: a :: x :: rest)
  = (Raise (TypeError "add_key() got multiple values for argument 'keyring'"),
     mkWorld h files [mkdir_event h]).
Proof. intros h files d l a x rest Hk Hl. run_guarded lookup_add add_key Hk l d Hl. bind_call. Qed.

Lemma remove_extra_args_run : forall h files d l x rest,
  keyring_of (mkWorld h files []) = Ok (PDict d) -> dict_mem d l = true ->
  invoke h files (t "sw" :: t "remove" :: l :: x :: rest)
  = (Raise (TypeError "remove_key() got multiple values for argument 'keyring'"),
     mkWorld h files [mkdir_event h]).
Proof. intros h files d l x rest Hk Hl. run_guarded lookup_remove remove_key Hk l d Hl. bind_call. Qed.

Lemma connect_extra_args_run : forall h files d l x rest,
  keyring_of (mkWorld h files []) = Ok (PDict d) -> dict_mem d l = true ->
  invoke h files (t "sw" :: t "connect" :: l :: x :: rest)
  = (Raise (TypeError "ssh_connect() got multiple values for argument 'keyring'"),
     mkWorld h files [mkdir_event h]).
Proof. intros h files d l x rest Hk Hl. run_guarded lookup_connect ssh_connect Hk l d Hl. bind_call. Qed.

Lemma run_extra_args_run : forall h files d l c x rest,
  keyring_of (mkWorld h files []) = Ok (PDict d) -> dict_mem d l = true ->
  invoke h files (t "sw" :: t "run" :: l :: c :: x :: rest)
  = (Raise (TypeError "ssh_run() got multiple values for argument 'keyring'"),
     mkWorld h files [mkdir_event h]).
Proof. intros h files d l c x rest Hk Hl. run_guarded lookup_run ssh_run Hk l d Hl. bind_call. Qed.

(** [sw connect LABEL ...] and [sw run LABEL ...] with an unknown label. *)
Lemma connect_unknown_run : forall h files d l rest,
  keyring_of (mkWorld h files []) = Ok (PDict d) -> str_valued d -> dict_mem d l = false ->
  invoke h files (t "sw" :: t "connect" :: l :: rest)
  = (Ok tt, mkWorld h (fs_write files (keyring_path h) (dumps (PDict d)))
                    [mkdir_event h; EPrint (label_message true (PStr l))]).
Proof.
  intros h files d l rest Hk Hs Hl. pose proof (loaded_dict_ok _ _ Hk) as Hok.
  run_guarded lookup_connect ssh_connect Hk l d Hl.
  unfold bind at 1, print, emit, ret. cbn [home fs out after_mkdir].
  rewrite save_keyring_dict by assumption. reflexivity.
Qed.

Lemma run_unknown_run : forall h files d l rest,
  keyring_of (mkWorld h files []) = Ok (PDict d) -> str_valued d -> dict_mem d l = false ->
  invoke h files (t "sw" :: t "run" :: l :: rest)
  = (Ok tt, mkWorld h (fs_write files (keyring_path h) (dumps (PDict d)))
                    [mkdir_event h; EPrint (label_message true (PStr l))]).
Proof.
  intros h files d l rest Hk Hs Hl. pose proof (loaded_dict_ok _ _ Hk) as Hok.
  run_guarded lookup_run ssh_run Hk l d Hl.
  unfold bind at 1, print, emit, ret. cbn [home fs out after_mkdir].
  rewrite save_keyring_dict by assumption. reflexivity.
Qed.

(** ** Computations that leave the files alone *)

Definition keeps_fs {A} (m : M A) : Prop := forall w, fs (snd (m w)) = fs w.

Lemma keeps_fs_bind : forall A B (m : M A) (k : A -> M B),
  keeps_fs m -> (forall a, keeps_fs (k a)) -> keeps_fs (bind m k).
Proof.
  intros A B m k Hm Hk w. unfold bind. specialize (Hm w).
  destruct (m w) as [[a|e] w'] eqn:E; cbn [snd] in *; [now rewrite Hk|exact Hm].
Qed.

Lemma keeps_fs_ret : forall A (a : A), keeps_fs (ret a).
Proof. now intros A a w. Qed.
Lemma keeps_fs_raise : forall A e, keeps_fs (A := A) (raise e).
Proof. now intros A e w. Qed.
Lemma keeps_fs_lift : forall A (r : res A), keeps_fs (lift r).
Proof. now intros A r w. Qed.
Lemma keeps_fs_emit : forall e, keeps_fs (emit e).
Proof. now intros e w. Qed.
Lemma keeps_fs_get_home : keeps_fs get_home.
Proof. now intros w. Qed.
Lemma keeps_fs_get_file : forall p, keeps_fs (get_file p).
Proof. now intros p w. Qed.

Create HintDb keeps_fs.
#[local] Hint Resolve keeps_fs_bind keeps_fs_ret keeps_fs_raise keeps_fs_lift keeps_fs_emit
  keeps_fs_get_home keeps_fs_get_file : keeps_fs.
#[local] Hint Unfold print shell read_keyring : keeps_fs.

Ltac keeps := repeat (intros; autounfold with keeps_fs; first
  [ apply keeps_fs_bind | apply keeps_fs_ret | apply keeps_fs_raise | apply keeps_fs_lift
  | apply keeps_fs_emit | apply keeps_fs_get_home | apply keeps_fs_get_file
  | match goal with |- keeps_fs (if ?b then _ else _) => destruct b end
  | match goal with |- keeps_fs (match ?x with _ => _ end) => destruct x end ]); intros.

Lemma keeps_fs_print_items : forall d, keeps_fs (print_items d).
Proof. induction d as [|[k a] r IH]; cbn [print_items]; keeps; exact IH. Qed.

Lemma keeps_fs_print_usage : keeps_fs print_usage.
Proof. unfold print_usage. cbn [print_lines]. keeps. Qed.

Lemma keeps_fs_read_only_open : forall fn args kw,
  (forall args kw, keeps_fs (fn args kw)) -> keeps_fs (open_keyring false fn args kw).
Proof. intros fn args kw Hfn. unfold open_keyring. keeps; apply Hfn. Qed.

Lemma keeps_fs_pyfun : forall name ps body args kw,
  (forall vals, keeps_fs (body vals)) -> keeps_fs (pyfun name ps body args kw).
Proof. intros name ps body args kw Hb. unfold pyfun. keeps; apply Hb. Qed.

Lemma keeps_fs_list_keys : forall args kw, keeps_fs (list_keys args kw).
Proof.
  intros. apply keeps_fs_read_only_open. intros. apply keeps_fs_pyfun. intro vals.
  unfold list_keys_body. keeps. apply keeps_fs_print_items.
Qed.

Lemma keeps_fs_export_keyring : forall args kw, keeps_fs (export_keyring args kw).
Proof.
  intros. apply keeps_fs_read_only_open. intros. apply keeps_fs_pyfun. intro vals.
  unfold export_keyring_body. keeps.
Qed.

Lemma keeps_fs_print_version : forall args kw, keeps_fs (print_version args kw).
Proof. intros. unfold print_version. keeps. Qed.

Lemma keeps_fs_command : forall h files c f rest, lookup_command c commands = Some f ->
  (forall args kw, keeps_fs (f args kw)) ->
  fs (snd (invoke h files (t "sw" :: c :: rest))) = files.
Proof.
  intros h files c f rest Hl Hf. rewrite (invoke_command _ _ _ _ rest Hl).
  exact (keeps_fs_bind _ _ _ _ (Hf _ _) (fun _ => keeps_fs_ret _ _) (mkWorld h files [])).
Qed.

Lemma printed_prints : forall ls, flat_map (fun e => match e with EPrint l => [l] | EShell _ => [] end) (map EPrint ls) = ls.
Proof. induction ls as [|l r IH]; cbn; [reflexivity|now rewrite IH]. Qed.

Lemma keyring_of_loaded_dict : forall h files bytes txt,
  fs_lookup files (keyring_path h) = Some bytes -> utf8_decode bytes = Some txt ->
  json_loads (universal_newlines txt) = Raise JSONDecodeError ->
  keyring_of (mkWorld h files []) = Ok (PDict []).
Proof.
  intros h files bytes txt Hf Hd Hj. unfold keyring_of. cbn [fs home]. rewrite Hf.
  cbn [read_keyring_file]. now rewrite Hd, Hj.
Qed.

Lemma dict_ok_nil : dict_ok [].
Proof. split; constructor. Qed.

Lemma dict_mem_app_last : forall d l v, ~ In l (map fst d) -> dict_mem (d ++ [(l, v)]) l = true.
Proof.
  intros d l v Hl. rewrite <- dict_set_fresh by exact Hl.
  unfold dict_mem. now rewrite dict_get_set, teqb_refl.
Qed.

Ltac ok_str_tac :=
  split;
  [ apply Forall_forall; intros c Hc; vm_compute in Hc; unfold in_range;
    repeat (destruct Hc as [<-|Hc]; [lia|]); contradiction
  | reflexivity ].

(** ** Loads that raise *)

(** A load that raises ends the call: only the [mkdir] has happened. *)
Lemma open_keyring_raise : forall write fn args kw w e,
  keyring_of w = Raise e ->
  open_keyring write fn args kw w = (Raise e, after_mkdir w).
Proof.
  intros write fn args kw w e Hk. unfold keyring_of in Hk.
  unfold open_keyring, bind at 1, get_home. unfold bind at 1, shell, emit.
  unfold bind at 1, read_keyring, bind at 1, get_home, bind at 1, get_file, lift.
  cbn [home fs out]. rewrite Hk. reflexivity.
Qed.

Lemma universal_newlines_brackets : forall n r,
  universal_newlines (repeat 91 n ++ r) = repeat 91 n ++ universal_newlines r.
Proof.
  induction n as [|n IH]; intro r; [reflexivity|].
  cbn [repeat app]. rewrite <- IH. reflexivity.
Qed.

(** [j + 1] opening brackets at depth [d], with [d + j] the limit, raise
    [RecursionError] at the last of them. *)
Lemma scan_nested_arrays : forall j f d y,
  (d + j)%nat = nesting_limit -> (2 * j < f)%nat ->
  scan_once f d (repeat 91 (S j) ++ y) = Raise RecursionError.
Proof.
  induction j as [|j IH]; intros f d y Hd Hf.
  - destruct f as [|f]; [lia|].
    assert (E : scan_once (S f) d (repeat 91 1 ++ y)
                = if Nat.ltb d nesting_limit
                  then match skip_ws y with
                       | e :: r' => if e =? 93 then Ok (PList [], r') else array_items f (S d) (e :: r') []
                       | [] => array_items f (S d) [] []
                       end
                  else Raise RecursionError) by reflexivity.
    rewrite E, (proj2 (Nat.ltb_ge d nesting_limit)) by lia. reflexivity.
  - destruct f as [|[|f]]; [lia|lia|].
    assert (E : scan_once (S (S f)) d (repeat 91 (S (S j)) ++ y)
                = if Nat.ltb d nesting_limit then array_items (S f) (S d) (repeat 91 (S j) ++ y) []
                  else Raise RecursionError) by reflexivity.
    rewrite E, (proj2 (Nat.ltb_lt d nesting_limit)) by lia.
    cbn [array_items]. rewrite (IH f (S d) y) by lia. reflexivity.
Qed.

(** More than [nesting_limit] opening brackets in front raise
    [RecursionError], whatever follows. *)
Lemma json_loads_nested : forall n y, (nesting_limit < n)%nat ->
  json_loads (repeat 91 n ++ y) = Raise RecursionError.
Proof.
  intros n y Hn.
  assert (Hr : repeat 91 n ++ y
               = repeat 91 (S nesting_limit) ++ (repeat 91 (n - S nesting_limit) ++ y)).
  { rewrite app_assoc, <- repeat_app. do 2 f_equal. lia. }
  rewrite Hr. set (Y := repeat 91 (n - S nesting_limit) ++ y).
  unfold json_loads.
  replace (prefixb [65279] (repeat 91 (S nesting_limit) ++ Y)) with false by reflexivity.
  replace (skip_ws (repeat 91 (S nesting_limit) ++ Y)) with (repeat 91 (S nesting_limit) ++ Y)
    by reflexivity.
  assert (Hl : (S nesting_limit <= List.length (repeat 91%Z (S nesting_limit) ++ Y))%nat)
    by (rewrite length_app, repeat_length; lia).
  rewrite (scan_nested_arrays nesting_limit _ 0 Y) by lia. reflexivity.
Qed.

Lemma span_digits_all : forall ds, Forall (fun d => 48 <= d <= 57) ds -> span_digits ds = (ds, []).
Proof.
  induction ds as [|c r IH]; intro H; [reflexivity|].
  inversion H as [|? ? Hc Hr]; subst. cbn [span_digits]. unfold is_digit.
  replace ((48 <=? c) && (c <=? 57)) with true by (symmetry; apply andb_true_iff; split; apply Z.leb_le; lia).
  now rewrite IH.
Qed.

Lemma prefixb_head_neq : forall x p c r, x <> c -> prefixb (x :: p) (c :: r) = false.
Proof. intros x p c r H. cbn [prefixb]. now rewrite (proj2 (Z.eqb_neq x c) H). Qed.

(** An int literal of more than [int_max_str_digits] digits raises
    [ValueError]. *)
Lemma json_loads_long_int : forall c ds,
  49 <= c <= 57 -> Forall (fun d => 48 <= d <= 57) ds -> (int_max_str_digits <= List.length ds)%nat ->
  json_loads (c :: ds) = Raise ValueError.
Proof.
  intros c ds Hc Hds Hlen. unfold json_loads.
  rewrite (prefixb_head_neq 65279 [] c ds) by lia.
  replace (skip_ws (c :: ds)) with (c :: ds)
    by (cbn [skip_ws]; unfold is_ws;
        replace (c =? 32) with false by (symmetry; apply Z.eqb_neq; lia);
        replace (c =? 9) with false by (symmetry; apply Z.eqb_neq; lia);
        replace (c =? 10) with false by (symmetry; apply Z.eqb_neq; lia);
        replace (c =? 13) with false by (symmetry; apply Z.eqb_neq; lia); reflexivity).
  remember (2 * S (List.length (c :: ds)))%nat as fu eqn:Hfu.
  destruct fu as [|f]; [lia|]. cbn [scan_once].
  replace (c =? 34) with false by (symmetry; apply Z.eqb_neq; lia).
  replace (c =? 123) with false by (symmetry; apply Z.eqb_neq; lia).
  replace (c =? 91) with false by (symmetry; apply Z.eqb_neq; lia).
  change (t "null") with (110 :: t "ull"). change (t "true") with (116 :: t "rue").
  change (t "false") with (102 :: t "alse"). change (t "NaN") with (78 :: t "aN").
  change (t "Infinity") with (73 :: t "nfinity"). change (t "-Infinity") with (45 :: t "Infinity").
  rewrite !prefixb_head_neq by lia.
  unfold match_number.
  replace (c =? 45) with false by (symmetry; apply Z.eqb_neq; lia).
  replace ((49 <=? c) && (c <=? 57)) with true
    by (symmetry; apply andb_true_iff; split; apply Z.leb_le; lia).
  rewrite (span_digits_all ds Hds). cbn [orb List.length].
  rewrite (proj2 (Nat.ltb_lt int_max_str_digits (S (List.length ds)))) by lia.
  reflexivity.
Qed.

Ltac load_fail_step c g Hk :=
  rewrite (invoke_command _ _ c g _ eq_refl); unfold bind at 1; unfold g at 1;
  rewrite (open_keyring_raise _ _ _ _ _ _ Hk); reflexivity.

(** Every command but [version] loads the keyring first: a load that raises
    fails the command with the same exception, after the [mkdir] alone. *)
Lemma load_failure_fails_command : forall h files e name rest,
  keyring_of (mkWorld h files []) = Raise e ->
  In name [t "list"; t "add"; t "rename"; t "remove"; t "connect"; t "run"; t "export"; t "import"] ->
  invoke h files (t "sw" :: name :: rest) = (Raise e, after_mkdir (mkWorld h files [])).
Proof.
  intros h files e name rest Hk Hin.
  repeat (destruct Hin as [<-|Hin]); [| | | | | | | | contradiction].
  - load_fail_step (t "list") list_keys Hk.
  - load_fail_step (t "add") add_key Hk.
  - load_fail_step (t "rename") rename_key Hk.
  - load_fail_step (t "remove") remove_key Hk.
  - load_fail_step (t "connect") ssh_connect Hk.
  - load_fail_step (t "run") ssh_run Hk.
  - load_fail_step (t "export") export_keyring Hk.
  - load_fail_step (t "import") import_keyring Hk.
Qed.

(** ** Concrete runs *)

Definition demo_home : text := t "/home/u".

(** A home whose keyring file holds [json.dumps(d)]. *)
Definition demo_files (d : dict) : list (text * list Z) :=
  [(keyring_path demo_home, dumps (PDict d))].

Ltac str_valued_tac := unfold str_valued; repeat constructor; eexists; reflexivity.

(** * The claims *)

(** C1: [sw rename A B] with [A] registered does not rename: the decorated
    [add_key] called inside [rename_key] receives a second [keyring]
    keyword and raises [TypeError]; the keyring file is left as it was. *)
Theorem rename_registered_raises : forall h files d a b,
  keyring_of (mkWorld h files []) = Ok (PDict d) -> dict_mem d a = true ->
  let '(r, w) := invoke h files [t "sw"; t "rename"; a; b] in
  r = Raise (TypeError "got multiple values for keyword argument 'keyring'") /\ fs w = files.
Proof.
  intros h files d a b Hk Ha. rewrite (rename_registered_run _ _ _ _ _ Hk Ha). now split.
Qed.

Lemma rename_registered_raises_witness :
  let '(r, w) := invoke demo_home (demo_files [(t "a", PStr (t "h"))]) [t "sw"; t "rename"; t "a"; t "b"] in
  r = Raise (TypeError "got multiple values for keyword argument 'keyring'")
  /\ fs w = demo_files [(t "a", PStr (t "h"))].
Proof.
  apply (rename_registered_raises _ _ [(t "a", PStr (t "h"))]); vm_compute; reflexivity.
Defined.

Lemma rename_counterexample :
  let '(r, w) := invoke demo_home (demo_files [(t "a", PStr (t "h"))]) [t "sw"; t "rename"; t "a"; t "b"] in
  r <> Ok tt /\ keyring_of w <> Ok (PDict [(t "b", PStr (t "h"))]).
Proof. vm_compute. split; discriminate. Qed.

(** C2: when the argument count check fails ([sw add LABEL] with a new
    label, [sw rename] with fewer than two arguments, [sw run LABEL] with a
    registered label) the count message is printed, and the [None] the
    check returns is saved: the keyring file then holds [null]. *)
Theorem count_failure_saves_none : forall h files d cmd args,
  keyring_of (mkWorld h files []) = Ok (PDict d) -> count_failure d cmd args ->
  let '(r, w) := invoke h files (t "sw" :: cmd :: args) in
  r = Ok tt /\ printed w = [count_message 2] /\ keyring_of w = Ok PNone.
Proof.
  intros h files d cmd args Hk Hc. rewrite (count_failure_run _ _ _ _ _ Hk Hc).
  split; [reflexivity|]. split; [reflexivity|]. apply keyring_of_null.
Qed.

Lemma count_failure_saves_none_witness :
  let '(r, w) := invoke demo_home (demo_files []) [t "sw"; t "add"; t "db"] in
  r = Ok tt /\ printed w = [count_message 2] /\ keyring_of w = Ok PNone.
Proof.
  apply (count_failure_saves_none _ _ []).
  - vm_compute; reflexivity.
  - left. split; [reflexivity|]. exists (t "db"). split; reflexivity.
Defined.

Lemma add_one_argument_counterexample :
  let '(r, w) := invoke demo_home (demo_files []) [t "sw"; t "add"; t "db"] in
  keyring_of w <> Ok (PDict []).
Proof. vm_compute. discriminate. Qed.

(** C3: [sw import FILE] never merges: [import_keyring(keyring, filepath)]
    receives [FILE] as its first positional argument, [keyring], and then
    the keyword [keyring], so the call raises [TypeError] before the body
    runs; the keyring file is left as it was. *)
Theorem import_raises : forall h files k p rest,
  keyring_of (mkWorld h files []) = Ok k ->
  let '(r, w) := invoke h files (t "sw" :: t "import" :: p :: rest) in
  r = Raise (TypeError "import_keyring() got multiple values for argument 'keyring'") /\ fs w = files.
Proof.
  intros h files k p rest Hk. rewrite (import_run _ _ _ _ _ Hk). now split.
Qed.

Definition import_files : list (text * list Z) :=
  [(keyring_path demo_home, dumps (PDict [(t "x", PStr (t "0")); (t "y", PStr (t "2"))]));
   (t "in.json", dumps (PDict [(t "x", PStr (t "1"))]))].

Lemma import_raises_witness :
  let '(r, w) := invoke demo_home import_files [t "sw"; t "import"; t "in.json"] in
  r = Raise (TypeError "import_keyring() got multiple values for argument 'keyring'") /\ fs w = import_files.
Proof.
  apply (import_raises _ _ (PDict [(t "x", PStr (t "0")); (t "y", PStr (t "2"))])).
  vm_compute; reflexivity.
Defined.

Lemma import_counterexample :
  let '(r, w) := invoke demo_home import_files [t "sw"; t "import"; t "in.json"] in
  r <> Ok tt /\ keyring_of w <> Ok (PDict [(t "x", PStr (t "1")); (t "y", PStr (t "2"))]).
Proof. vm_compute. split; discriminate. Qed.

(** C4 (as the code has it): a missing keyring file loads as [{}], but
    [open_keyring_fn] catches only [JSONDecodeError] and
    [FileNotFoundError].  Bytes that are not UTF-8 raise
    [UnicodeDecodeError]; text that opens more than [nesting_limit] arrays
    in a row raises [RecursionError]; an int of more than
    [int_max_str_digits] digits raises [ValueError].  Whenever loading
    raises, every command that loads the keyring fails with that exception,
    and nothing but the [mkdir] has happened. *)
Theorem load_outcomes : forall h files,
  (fs_lookup files (keyring_path h) = None -> keyring_of (mkWorld h files []) = Ok (PDict [])) /\
  (forall bytes, fs_lookup files (keyring_path h) = Some bytes -> utf8_decode bytes = None ->
     keyring_of (mkWorld h files []) = Raise UnicodeDecodeError) /\
  (forall bytes n r, fs_lookup files (keyring_path h) = Some bytes ->
     utf8_decode bytes = Some (repeat 91 n ++ r) -> (nesting_limit < n)%nat ->
     keyring_of (mkWorld h files []) = Raise RecursionError) /\
  (forall bytes c ds, fs_lookup files (keyring_path h) = Some bytes ->
     utf8_decode bytes = Some (c :: ds) -> 49 <= c <= 57 -> Forall (fun d => 48 <= d <= 57) ds ->
     (int_max_str_digits <= List.length ds)%nat ->
     keyring_of (mkWorld h files []) = Raise ValueError) /\
  (forall e name rest, keyring_of (mkWorld h files []) = Raise e ->
     In name [t "list"; t "add"; t "rename"; t "remove"; t "connect"; t "run"; t "export"; t "import"] ->
     invoke h files (t "sw" :: name :: rest) = (Raise e, after_mkdir (mkWorld h files []))).
Proof.
  intros h files. unfold keyring_of. cbn [fs home].
  split; [|split; [|split; [|split]]].
  - intros ->. reflexivity.
  - intros bytes -> Ht. cbn [read_keyring_file]. now rewrite Ht.
  - intros bytes n r -> Ht Hn. cbn [read_keyring_file]. rewrite Ht.
    rewrite universal_newlines_brackets, json_loads_nested by exact Hn. reflexivity.
  - intros bytes c ds -> Ht Hc Hds Hlen. cbn [read_keyring_file]. rewrite Ht.
    rewrite universal_newlines_printable.
    + rewrite json_loads_long_int by assumption. reflexivity.
    + constructor; [unfold printable; lia|].
      apply Forall_impl with (P := fun d => 48 <= d <= 57); [|exact Hds].
      intros d Hd. unfold printable. lia.
  - intros e name rest Hk Hin. exact (load_failure_fails_command h files e name rest Hk Hin).
Qed.

Definition deep_files : list (text * list Z) := [(keyring_path demo_home, repeat 91 994)].

Lemma load_outcomes_witness :
  keyring_of (mkWorld demo_home deep_files []) = Raise RecursionError
  /\ invoke demo_home deep_files [t "sw"; t "list"]
     = (Raise RecursionError, after_mkdir (mkWorld demo_home deep_files [])).
Proof.
  destruct (load_outcomes demo_home deep_files) as [_ [_ [Hr [_ Hc]]]].
  assert (Hk : keyring_of (mkWorld demo_home deep_files []) = Raise RecursionError).
  { apply (Hr (repeat 91 994) 994%nat []);
      [reflexivity | vm_compute; reflexivity | unfold nesting_limit; lia]. }
  split; [exact Hk|]. apply Hc; [exact Hk | left; reflexivity].
Defined.

Lemma load_counterexample :
  fst (invoke demo_home [(keyring_path demo_home, [255])] [t "sw"; t "list"]) = Raise UnicodeDecodeError.
Proof. vm_compute. reflexivity. Qed.

(** C5: [add], [remove], [connect] and [run] check in the order load,
    label, argument count, body; and [sw add LABEL] with a registered label
    prints the already-registered message, not the count message, and
    leaves the keyring as it was. *)
Theorem guarded_commands_order :
  (forall args w, add_key args [] w
     = guarded_in_order true false 2 (pyfun "add_key" ["label"; "addr"; "keyring"]%string add_key_body) args [] w) /\
  (forall args w, remove_key args [] w
     = guarded_in_order true true 1 (pyfun "remove_key" ["label"; "keyring"]%string remove_key_body) args [] w) /\
  (forall args w, ssh_connect args [] w
     = guarded_in_order true true 1 (pyfun "ssh_connect" ["label"; "keyring"]%string ssh_connect_body) args [] w) /\
  (forall args w, ssh_run args [] w
     = guarded_in_order true true 2 (pyfun "ssh_run" ["label"; "command"; "keyring"]%string ssh_run_body) args [] w) /\
  (forall h files d l,
     keyring_of (mkWorld h files []) = Ok (PDict d) -> str_valued d -> dict_mem d l = true ->
     let '(r, w) := invoke h files [t "sw"; t "add"; l] in
     r = Ok tt /\ printed w = [t "The label " ++ l ++ t " is already registered!"]
     /\ keyring_of w = Ok (PDict d)).
Proof.
  split; [intros; apply guarded_stack|].
  split; [intros; apply guarded_stack|].
  split; [intros; apply guarded_stack|].
  split; [intros; apply guarded_stack|].
  intros h files d l Hk Hs Hl. rewrite (add_registered_run _ _ _ _ [] Hk Hs Hl).
  split; [reflexivity|]. split; [reflexivity|].
  apply keyring_of_saved; [exact (loaded_dict_ok _ _ Hk) | exact Hs].
Qed.

(** C6: [sw remove LABEL ...] with an unknown label prints
    [LABEL is not a valid label!] and leaves the keyring as it was. *)
Theorem remove_unknown_label : forall h files d l rest,
  keyring_of (mkWorld h files []) = Ok (PDict d) -> str_valued d -> dict_mem d l = false ->
  let '(r, w) := invoke h files (t "sw" :: t "remove" :: l :: rest) in
  r = Ok tt /\ printed w = [l ++ t " is not a valid label!"] /\ keyring_of w = Ok (PDict d).
Proof.
  intros h files d l rest Hk Hs Hl. rewrite (remove_unknown_run _ _ _ _ rest Hk Hs Hl).
  split; [reflexivity|]. split; [reflexivity|].
  apply keyring_of_saved; [exact (loaded_dict_ok _ _ Hk) | exact Hs].
Qed.

Lemma remove_unknown_label_witness :
  let '(r, w) := invoke demo_home (demo_files [(t "db", PStr (t "x"))]) [t "sw"; t "remove"; t "ghost"] in
  r = Ok tt /\ printed w = [t "ghost" ++ t " is not a valid label!"]
  /\ keyring_of w = Ok (PDict [(t "db", PStr (t "x"))]).
Proof.
  apply (remove_unknown_label _ _ [(t "db", PStr (t "x"))] _ []);
    [vm_compute; reflexivity | str_valued_tac | reflexivity].
Defined.

(** C7 (as the code has it): [sw add LABEL ...] with a registered label
    leaves the keyring as it was and prints
    [The label LABEL is already registered!]. *)
Theorem add_registered_label : forall h files d l rest,
  keyring_of (mkWorld h files []) = Ok (PDict d) -> str_valued d -> dict_mem d l = true ->
  let '(r, w) := invoke h files (t "sw" :: t "add" :: l :: rest) in
  r = Ok tt /\ printed w = [t "The label " ++ l ++ t " is already registered!"]
  /\ keyring_of w = Ok (PDict d).
Proof.
  intros h files d l rest Hk Hs Hl. rewrite (add_registered_run _ _ _ _ rest Hk Hs Hl).
  split; [reflexivity|]. split; [reflexivity|].
  apply keyring_of_saved; [exact (loaded_dict_ok _ _ Hk) | exact Hs].
Qed.

Lemma add_registered_label_witness :
  let '(r, w) := invoke demo_home (demo_files [(t "db", PStr (t "x"))]) [t "sw"; t "add"; t "db"; t "x"] in
  r = Ok tt /\ printed w = [t "The label " ++ t "db" ++ t " is already registered!"]
  /\ keyring_of w = Ok (PDict [(t "db", PStr (t "x"))]).
Proof.
  apply (add_registered_label _ _ [(t "db", PStr (t "x"))] _ [t "x"]);
    [vm_compute; reflexivity | str_valued_tac | reflexivity].
Defined.

Lemma add_twice_counterexample :
  let '(_, w1) := invoke demo_home [] [t "sw"; t "add"; t "db"; t "x"] in
  let '(_, w2) := invoke demo_home (fs w1) [t "sw"; t "add"; t "db"; t "x"] in
  printed w2 = [t "The label db is already registered!"]
  /\ printed w2 <> [t "db is already registered!"].
Proof. vm_compute. split; [reflexivity | discriminate]. Qed.

(** C8: saving the mapping just loaded and loading again gives the same
    mapping; the file then holds exactly [json.dumps] of it, whatever it
    held before. *)
Theorem save_after_load_roundtrip : forall w d,
  keyring_of w = Ok (PDict d) -> str_valued d ->
  let '(r, w') := save_keyring (PDict d) w in
  r = Ok (PDict d) /\ keyring_of w' = Ok (PDict d)
  /\ fs_lookup (fs w') (keyring_path (home w')) = Some (dumps (PDict d)).
Proof.
  intros w d Hk Hs. pose proof (read_keyring_file_ok _ _ Hk) as Hok.
  rewrite save_keyring_dict by assumption.
  split; [reflexivity|]. unfold keyring_of. cbn [fs home]. rewrite fs_lookup_write.
  split; [now apply read_dumps_dict | reflexivity].
Qed.

Lemma save_after_load_roundtrip_witness :
  let '(r, w') := save_keyring (PDict [(t "db", PStr (t "x")); (t "web", PStr (t "u@h"))])
                    (mkWorld demo_home (demo_files [(t "db", PStr (t "x")); (t "web", PStr (t "u@h"))]) []) in
  r = Ok (PDict [(t "db", PStr (t "x")); (t "web", PStr (t "u@h"))])
  /\ keyring_of w' = Ok (PDict [(t "db", PStr (t "x")); (t "web", PStr (t "u@h"))])
  /\ fs_lookup (fs w') (keyring_path (home w'))
     = Some (dumps (PDict [(t "db", PStr (t "x")); (t "web", PStr (t "u@h"))])).
Proof.
  apply save_after_load_roundtrip; [vm_compute; reflexivity | str_valued_tac].
Defined.

(** C9: [sw add], [sw remove], [sw connect] and [sw run] with no further
    argument raise [TypeError] for the missing [label], after the mkdir and
    before any print; the keyring file is left as it was. *)
Theorem zero_args_type_error : forall h files k cmd,
  In cmd [t "add"; t "remove"; t "connect"; t "run"] ->
  keyring_of (mkWorld h files []) = Ok k ->
  let '(r, w) := invoke h files [t "sw"; cmd] in
  r = Raise (TypeError "validate_label_fn() missing 1 required positional argument: 'label'")
  /\ printed w = [] /\ fs w = files.
Proof.
  intros h files k cmd Hin Hk. rewrite (zero_args_run _ _ _ _ Hin Hk). now split.
Qed.

Lemma zero_args_type_error_witness :
  let '(r, w) := invoke demo_home (demo_files []) [t "sw"; t "connect"] in
  r = Raise (TypeError "validate_label_fn() missing 1 required positional argument: 'label'")
  /\ printed w = [] /\ fs w = demo_files [].
Proof.
  apply (zero_args_type_error _ _ (PDict [])); [simpl; tauto | vm_compute; reflexivity].
Defined.



(** * Further properties of the commands *)

(** [sw add LABEL ADDR] with a new label saves the keyring with
    [LABEL: ADDR] added last, and prints nothing. *)
Theorem add_new_label_saved : forall h files d l a,
  keyring_of (mkWorld h files []) = Ok (PDict d) -> str_valued d ->
  dict_mem d l = false -> ok_str l -> ok_str a ->
  let '(r, w) := invoke h files [t "sw"; t "add"; l; a] in
  r = Ok tt /\ printed w = [] /\ keyring_of w = Ok (PDict (d ++ [(l, PStr a)])).
Proof.
  intros h files d l a Hk Hs Hl Hsl Hsa.
  pose proof (dict_add_ok _ _ _ (loaded_dict_ok _ _ Hk) Hl Hsl Hsa) as Hok.
  pose proof (str_valued_add _ l a Hs) as Hs'.
  rewrite (add_new_run _ _ _ _ _ Hk Hl Hok Hs').
  split; [reflexivity|]. split; [reflexivity|]. now apply keyring_of_saved.
Qed.

Lemma add_new_label_saved_witness :
  let '(r, w) := invoke demo_home (demo_files [(t "db", PStr (t "x"))]) [t "sw"; t "add"; t "web"; t "u@h"] in
  r = Ok tt /\ printed w = []
  /\ keyring_of w = Ok (PDict ([(t "db", PStr (t "x"))] ++ [(t "web", PStr (t "u@h"))])).
Proof.
  apply (add_new_label_saved _ _ [(t "db", PStr (t "x"))]);
    [vm_compute; reflexivity | str_valued_tac | reflexivity | ok_str_tac | ok_str_tac].
Defined.

(** [sw remove LABEL] with a registered label saves the keyring without
    [LABEL], every other label keeping its address, and prints nothing. *)
Theorem remove_registered_label_saved : forall h files d l,
  keyring_of (mkWorld h files []) = Ok (PDict d) -> str_valued d -> dict_mem d l = true ->
  let '(r, w) := invoke h files [t "sw"; t "remove"; l] in
  r = Ok tt /\ printed w = [] /\
  exists d', keyring_of w = Ok (PDict d') /\ dict_get d' l = None
             /\ forall k, k <> l -> dict_get d' k = dict_get d k.
Proof.
  intros h files d l Hk Hs Hl. pose proof (loaded_dict_ok _ _ Hk) as Hok.
  rewrite (remove_registered_run _ _ _ _ Hk Hs Hl).
  split; [reflexivity|]. split; [reflexivity|]. exists (dict_remove d l). split; [|split].
  - apply keyring_of_saved; [now apply dict_remove_ok | exact (dict_remove_forall _ _ _ Hs)].
  - rewrite dict_get_remove by apply Hok. now rewrite teqb_refl.
  - intros k Hkl. rewrite dict_get_remove by apply Hok. now rewrite teqb_neq.
Qed.

Lemma remove_registered_label_saved_witness :
  let '(r, w) := invoke demo_home (demo_files [(t "db", PStr (t "x")); (t "web", PStr (t "u@h"))])
                   [t "sw"; t "remove"; t "db"] in
  r = Ok tt /\ printed w = [] /\
  exists d', keyring_of w = Ok (PDict d') /\ dict_get d' (t "db") = None
             /\ forall k, k <> t "db" -> dict_get d' k = dict_get [(t "db", PStr (t "x")); (t "web", PStr (t "u@h"))] k.
Proof.
  apply remove_registered_label_saved; [vm_compute; reflexivity | str_valued_tac | reflexivity].
Defined.

(** [sw add LABEL ADDR] with a new label, then [sw remove LABEL], gives back
    the keyring loaded at the start. *)
Theorem add_then_remove_restores : forall h files d l a,
  keyring_of (mkWorld h files []) = Ok (PDict d) -> str_valued d ->
  dict_mem d l = false -> ok_str l -> ok_str a ->
  let '(_, w1) := invoke h files [t "sw"; t "add"; l; a] in
  let '(r2, w2) := invoke h (fs w1) [t "sw"; t "remove"; l] in
  r2 = Ok tt /\ keyring_of w2 = Ok (PDict d).
Proof.
  intros h files d l a Hk Hs Hl Hsl Hsa.
  pose proof (loaded_dict_ok _ _ Hk) as Hok.
  pose proof (dict_add_ok _ _ _ Hok Hl Hsl Hsa) as Hok'.
  pose proof (str_valued_add _ l a Hs) as Hs'.
  pose proof (dict_mem_false_notin _ _ Hl) as Hnin.
  rewrite (add_new_run _ _ _ _ _ Hk Hl Hok' Hs'). cbn [fs].
  rewrite (remove_registered_run _ _ (d ++ [(l, PStr a)]) l (keyring_of_saved _ _ _ _ Hok' Hs') Hs'
             (dict_mem_app_last _ _ _ Hnin)).
  rewrite dict_remove_app_fresh by exact Hnin.
  split; [reflexivity|]. now apply keyring_of_saved.
Qed.

Lemma add_then_remove_restores_witness :
  let '(_, w1) := invoke demo_home (demo_files [(t "db", PStr (t "x"))]) [t "sw"; t "add"; t "web"; t "u@h"] in
  let '(r2, w2) := invoke demo_home (fs w1) [t "sw"; t "remove"; t "web"] in
  r2 = Ok tt /\ keyring_of w2 = Ok (PDict [(t "db", PStr (t "x"))]).
Proof.
  apply add_then_remove_restores;
    [vm_compute; reflexivity | str_valued_tac | reflexivity | ok_str_tac | ok_str_tac].
Defined.

(** For a keyring of str addresses, [sw list] prints a header, then one
    [LABEL<tab>ADDRESS] line per entry in the keyring's order, and writes no
    file. *)
Theorem list_prints_entries : forall h files d,
  keyring_of (mkWorld h files []) = Ok (PDict d) -> str_valued d ->
  let '(r, w) := invoke h files [t "sw"; t "list"] in
  r = Ok tt /\ printed w = (t "LABEL" ++ [9] ++ t "ADDRESS") :: map list_line d /\ fs w = files.
Proof.
  intros h files d Hk _. rewrite (list_run _ _ _ Hk).
  split; [reflexivity|]. split; [|reflexivity].
  unfold printed. cbn [out flat_map app mkdir_event]. f_equal. rewrite <- map_map. apply printed_prints.
Qed.

Lemma list_prints_entries_witness :
  let '(r, w) := invoke demo_home (demo_files [(t "db", PStr (t "x")); (t "web", PStr (t "u@h"))])
                   [t "sw"; t "list"] in
  r = Ok tt
  /\ printed w = (t "LABEL" ++ [9] ++ t "ADDRESS")
                   :: map list_line [(t "db", PStr (t "x")); (t "web", PStr (t "u@h"))]
  /\ fs w = demo_files [(t "db", PStr (t "x")); (t "web", PStr (t "u@h"))].
Proof. apply list_prints_entries; [vm_compute; reflexivity | str_valued_tac]. Defined.

(** [sw list], [sw export] and [sw version], with any further arguments,
    write no file, whatever the files hold (a missing, corrupt or non-UTF-8
    keyring file included). *)
Theorem read_only_commands_keep_files : forall h files rest,
  fs (snd (invoke h files (t "sw" :: t "list" :: rest))) = files /\
  fs (snd (invoke h files (t "sw" :: t "export" :: rest))) = files /\
  fs (snd (invoke h files (t "sw" :: t "version" :: rest))) = files.
Proof.
  intros h files rest. split; [|split].
  - exact (keeps_fs_command h files (t "list") list_keys rest eq_refl keeps_fs_list_keys).
  - exact (keeps_fs_command h files (t "export") export_keyring rest eq_refl keeps_fs_export_keyring).
  - exact (keeps_fs_command h files (t "version") print_version rest eq_refl keeps_fs_print_version).
Qed.

(** [sw export] prints the keyring as one line of [json.dumps]: printable
    ASCII that [json.loads] reads back as the same keyring. *)
Theorem export_prints_json : forall h files d,
  keyring_of (mkWorld h files []) = Ok (PDict d) -> str_valued d ->
  let '(r, w) := invoke h files [t "sw"; t "export"] in
  r = Ok tt /\ printed w = [dumps (PDict d)] /\ Forall printable (dumps (PDict d))
  /\ json_loads (dumps (PDict d)) = Ok (PDict d) /\ fs w = files.
Proof.
  intros h files d Hk Hs. rewrite (export_run _ _ _ Hk).
  split; [reflexivity|]. split; [reflexivity|]. split; [now apply dumps_dict_printable|].
  split; [|reflexivity]. apply json_loads_dumps; [exact (loaded_dict_ok _ _ Hk) | exact Hs].
Qed.

Lemma export_prints_json_witness :
  let '(r, w) := invoke demo_home (demo_files [(t "db", PStr (t "x"))]) [t "sw"; t "export"] in
  r = Ok tt /\ printed w = [dumps (PDict [(t "db", PStr (t "x"))])]
  /\ Forall printable (dumps (PDict [(t "db", PStr (t "x"))]))
  /\ json_loads (dumps (PDict [(t "db", PStr (t "x"))])) = Ok (PDict [(t "db", PStr (t "x"))])
  /\ fs w = demo_files [(t "db", PStr (t "x"))].
Proof. apply export_prints_json; [vm_compute; reflexivity | str_valued_tac]. Defined.

(** [sw version ...] prints [0.2.0] and does nothing else: no [mkdir], no
    keyring read. *)
Theorem version_prints_only_version : forall h files rest,
  invoke h files (t "sw" :: t "version" :: rest) = (Ok tt, mkWorld h files [EPrint (t "0.2.0")]).
Proof. intros h files rest. reflexivity. Qed.

(** An unknown command behaves as [sw] alone: the usage text is printed,
    and nothing else happens. *)
Theorem unknown_command_prints_usage : forall h files c rest,
  lookup_command c commands = None ->
  invoke h files (t "sw" :: c :: rest) = invoke h files [t "sw"] /\
  invoke h files [t "sw"]
  = (Ok tt, mkWorld h files
              (map EPrint
                 [t "USAGE: sw COMMAND"; []; t "Possible commands:"; [];
                  t "sw version"; t "sw list";
                  t "sw add       LABEL   ADDR";
                  t "sw rename    LABEL   NEWLABEL";
                  t "sw remove    LABEL";
                  t "sw connect   LABEL";
                  t "sw run       LABEL   COMMAND";
                  t "sw export";
                  t "sw import    FILE"])).
Proof. intros h files c rest Hc. unfold invoke, main. rewrite Hc. split; reflexivity. Qed.

Lemma unknown_command_prints_usage_witness :
  invoke demo_home [] [t "sw"; t "help"] = invoke demo_home [] [t "sw"] /\
  invoke demo_home [] [t "sw"]
  = (Ok tt, mkWorld demo_home []
              (map EPrint
                 [t "USAGE: sw COMMAND"; []; t "Possible commands:"; [];
                  t "sw version"; t "sw list";
                  t "sw add       LABEL   ADDR";
                  t "sw rename    LABEL   NEWLABEL";
                  t "sw remove    LABEL";
                  t "sw connect   LABEL";
                  t "sw run       LABEL   COMMAND";
                  t "sw export";
                  t "sw import    FILE"])).
Proof. apply unknown_command_prints_usage. reflexivity. Defined.

(** [sw rename A B] with [A] not registered raises [KeyError] at
    [keyring[label]]; nothing is printed and no file is written. *)
Theorem rename_unknown_label_raises : forall h files d a b,
  keyring_of (mkWorld h files []) = Ok (PDict d) -> dict_mem d a = false ->
  let '(r, w) := invoke h files [t "sw"; t "rename"; a; b] in
  r = Raise KeyError /\ printed w = [] /\ fs w = files.
Proof. intros h files d a b Hk Ha. rewrite (rename_unknown_run _ _ _ _ _ Hk Ha). now split. Qed.

Lemma rename_unknown_label_raises_witness :
  let '(r, w) := invoke demo_home (demo_files [(t "db", PStr (t "x"))]) [t "sw"; t "rename"; t "web"; t "www"] in
  r = Raise KeyError /\ printed w = [] /\ fs w = demo_files [(t "db", PStr (t "x"))].
Proof. apply (rename_unknown_label_raises _ _ [(t "db", PStr (t "x"))]); [vm_compute|]; reflexivity. Defined.

(** [sw import] with no file prints [This action requires 1 arguments!],
    and the [None] returned is saved: the keyring file then holds [null]. *)
Theorem import_without_file_saves_none : forall h files k,
  keyring_of (mkWorld h files []) = Ok k ->
  let '(r, w) := invoke h files [t "sw"; t "import"] in
  r = Ok tt /\ printed w = [count_message 1] /\ keyring_of w = Ok PNone.
Proof.
  intros h files k Hk. rewrite (import_noargs_run _ _ _ Hk).
  split; [reflexivity|]. split; [reflexivity|]. apply keyring_of_null.
Qed.

Lemma import_without_file_saves_none_witness :
  let '(r, w) := invoke demo_home (demo_files [(t "db", PStr (t "x"))]) [t "sw"; t "import"] in
  r = Ok tt /\ printed w = [count_message 1] /\ keyring_of w = Ok PNone.
Proof. apply (import_without_file_saves_none _ _ (PDict [(t "db", PStr (t "x"))])). vm_compute; reflexivity. Defined.

(** [sw remove LABEL X ...], [sw connect LABEL X ...] and
    [sw run LABEL COMMAND X ...] with a registered label: the extra argument
    binds to the [keyring] parameter, so the call raises [TypeError] before
    the body; nothing is printed, no [ssh] is run, no file is written. *)
Theorem extra_args_type_error : forall h files d l c x rest,
  keyring_of (mkWorld h files []) = Ok (PDict d) -> dict_mem d l = true ->
  (let '(r, w) := invoke h files (t "sw" :: t "remove" :: l :: x :: rest) in
   r = Raise (TypeError "remove_key() got multiple values for argument 'keyring'")
   /\ out w = [mkdir_event h] /\ fs w = files) /\
  (let '(r, w) := invoke h files (t "sw" :: t "connect" :: l :: x :: rest) in
   r = Raise (TypeError "ssh_connect() got multiple values for argument 'keyring'")
   /\ out w = [mkdir_event h] /\ fs w = files) /\
  (let '(r, w) := invoke h files (t "sw" :: t "run" :: l :: c :: x :: rest) in
   r = Raise (TypeError "ssh_run() got multiple values for argument 'keyring'")
   /\ out w = [mkdir_event h] /\ fs w = files).
Proof.
  intros h files d l c x rest Hk Hl.
  rewrite (remove_extra_args_run _ _ _ _ _ _ Hk Hl), (connect_extra_args_run _ _ _ _ _ _ Hk Hl),
    (run_extra_args_run _ _ _ _ _ _ _ Hk Hl).
  repeat split.
Qed.

Lemma extra_args_type_error_witness :
  (let '(r, w) := invoke demo_home (demo_files [(t "db", PStr (t "x"))])
                    [t "sw"; t "remove"; t "db"; t "now"] in
   r = Raise (TypeError "remove_key() got multiple values for argument 'keyring'")
   /\ out w = [mkdir_event demo_home] /\ fs w = demo_files [(t "db", PStr (t "x"))]) /\
  (let '(r, w) := invoke demo_home (demo_files [(t "db", PStr (t "x"))])
                    [t "sw"; t "connect"; t "db"; t "now"] in
   r = Raise (TypeError "ssh_connect() got multiple values for argument 'keyring'")
   /\ out w = [mkdir_event demo_home] /\ fs w = demo_files [(t "db", PStr (t "x"))]) /\
  (let '(r, w) := invoke demo_home (demo_files [(t "db", PStr (t "x"))])
                    [t "sw"; t "run"; t "db"; t "ls"; t "now"] in
   r = Raise (TypeError "ssh_run() got multiple values for argument 'keyring'")
   /\ out w = [mkdir_event demo_home] /\ fs w = demo_files [(t "db", PStr (t "x"))]).
Proof.
  apply (extra_args_type_error _ _ [(t "db", PStr (t "x"))]); [vm_compute|]; reflexivity.
Defined.

(** [sw add LABEL ADDR X ...] with a new label raises [TypeError] the same
    way, and adds nothing. *)
Theorem add_extra_args_type_error : forall h files d l a x rest,
  keyring_of (mkWorld h files []) = Ok (PDict d) -> dict_mem d l = false ->
  let '(r, w) := invoke h files (t "sw" :: t "add" :: l :: a :: x :: rest) in
  r = Raise (TypeError "add_key() got multiple values for argument 'keyring'")
  /\ printed w = [] /\ fs w = files.
Proof.
  intros h files d l a x rest Hk Hl. rewrite (add_extra_args_run _ _ _ _ _ _ _ Hk Hl). now split.
Qed.

Lemma add_extra_args_type_error_witness :
  let '(r, w) := invoke demo_home (demo_files []) [t "sw"; t "add"; t "web"; t "u@h"; t "now"] in
  r = Raise (TypeError "add_key() got multiple values for argument 'keyring'")
  /\ printed w = [] /\ fs w = demo_files [].
Proof. apply (add_extra_args_type_error _ _ []); [vm_compute|]; reflexivity. Defined.

(** [sw connect LABEL ...] and [sw run LABEL ...] with an unknown label print
    [LABEL is not a valid label!], run no [ssh], and save the keyring
    unchanged. *)
Theorem ssh_unknown_label_soft_fail : forall h files d l rest,
  keyring_of (mkWorld h files []) = Ok (PDict d) -> str_valued d -> dict_mem d l = false ->
  (let '(r, w) := invoke h files (t "sw" :: t "connect" :: l :: rest) in
   r = Ok tt /\ out w = [mkdir_event h; EPrint (l ++ t " is not a valid label!")]
   /\ keyring_of w = Ok (PDict d)) /\
  (let '(r, w) := invoke h files (t "sw" :: t "run" :: l :: rest) in
   r = Ok tt /\ out w = [mkdir_event h; EPrint (l ++ t " is not a valid label!")]
   /\ keyring_of w = Ok (PDict d)).
Proof.
  intros h files d l rest Hk Hs Hl. pose proof (loaded_dict_ok _ _ Hk) as Hok.
  rewrite (connect_unknown_run _ _ _ _ _ Hk Hs Hl), (run_unknown_run _ _ _ _ _ Hk Hs Hl).
  split; (split; [reflexivity|]); (split; [reflexivity|]); now apply keyring_of_saved.
Qed.

Lemma ssh_unknown_label_soft_fail_witness :
  (let '(r, w) := invoke demo_home (demo_files [(t "db", PStr (t "x"))]) [t "sw"; t "connect"; t "web"] in
   r = Ok tt /\ out w = [mkdir_event demo_home; EPrint (t "web" ++ t " is not a valid label!")]
   /\ keyring_of w = Ok (PDict [(t "db", PStr (t "x"))])) /\
  (let '(r, w) := invoke demo_home (demo_files [(t "db", PStr (t "x"))]) [t "sw"; t "run"; t "web"] in
   r = Ok tt /\ out w = [mkdir_event demo_home; EPrint (t "web" ++ t " is not a valid label!")]
   /\ keyring_of w = Ok (PDict [(t "db", PStr (t "x"))])).
Proof.
  apply (ssh_unknown_label_soft_fail _ _ [(t "db", PStr (t "x"))]);
    [vm_compute; reflexivity | str_valued_tac | reflexivity].
Defined.

(** After a count failure has saved [None] ([null]), [sw list] and
    [sw add LABEL ADDR] fail: [None.items()] raises [AttributeError] and
    [label in None] raises [TypeError]. *)
Theorem count_failure_breaks_later_commands : forall h files d cmd args,
  keyring_of (mkWorld h files []) = Ok (PDict d) -> count_failure d cmd args ->
  let '(_, w1) := invoke h files (t "sw" :: cmd :: args) in
  fst (invoke h (fs w1) [t "sw"; t "list"]) = Raise (AttributeError "object has no attribute 'items'") /\
  forall l a, fst (invoke h (fs w1) [t "sw"; t "add"; l; a])
              = Raise (TypeError "argument of type is not iterable").
Proof.
  intros h files d cmd args Hk Hc. rewrite (count_failure_run _ _ _ _ _ Hk Hc). cbn [fs].
  pose proof (keyring_of_null h files []) as Hn.
  split; [|intros l a].
  - rewrite (invoke_command _ _ (t "list") list_keys _ eq_refl).
    unfold bind at 1. unfold list_keys at 1.
    rewrite (open_keyring_run _ _ _ [] _ _ eq_refl Hn). reflexivity.
  - rewrite (invoke_command _ _ _ _ _ lookup_add).
    unfold bind at 1. unfold add_key at 1.
    rewrite (open_keyring_run _ _ _ [] _ _ eq_refl Hn). reflexivity.
Qed.

Lemma count_failure_breaks_later_commands_witness :
  let '(_, w1) := invoke demo_home (demo_files [(t "db", PStr (t "x"))]) [t "sw"; t "run"; t "db"] in
  fst (invoke demo_home (fs w1) [t "sw"; t "list"]) = Raise (AttributeError "object has no attribute 'items'") /\
  forall l a, fst (invoke demo_home (fs w1) [t "sw"; t "add"; l; a])
              = Raise (TypeError "argument of type is not iterable").
Proof.
  apply (count_failure_breaks_later_commands _ _ [(t "db", PStr (t "x"))]).
  - vm_compute; reflexivity.
  - right. right. split; [reflexivity|]. exists (t "db"). split; reflexivity.
Defined.

(** A keyring file whose text [json.loads] refuses with [JSONDecodeError]
    is read as [{}]; [sw add LABEL ADDR] then replaces the file's whole
    content with [{"LABEL": "ADDR"}]. *)
Theorem add_replaces_unparsable_keyring : forall h files bytes txt l a,
  fs_lookup files (keyring_path h) = Some bytes -> utf8_decode bytes = Some txt ->
  json_loads (universal_newlines txt) = Raise JSONDecodeError -> ok_str l -> ok_str a ->
  let '(r, w) := invoke h files [t "sw"; t "add"; l; a] in
  r = Ok tt /\ fs_lookup (fs w) (keyring_path h) = Some (dumps (PDict [(l, PStr a)])).
Proof.
  intros h files bytes txt l a Hf Hd Hj Hsl Hsa.
  pose proof (keyring_of_loaded_dict _ _ _ _ Hf Hd Hj) as Hk.
  pose proof (dict_add_ok [] l a dict_ok_nil eq_refl Hsl Hsa) as Hok.
  pose proof (str_valued_add [] l a (Forall_nil _)) as Hs.
  rewrite (add_new_run _ _ _ _ _ Hk eq_refl Hok Hs). cbn [fs]. split; [reflexivity|].
  apply fs_lookup_write.
Qed.

Lemma add_replaces_unparsable_keyring_witness :
  let '(r, w) := invoke demo_home [(keyring_path demo_home, t "db: x")] [t "sw"; t "add"; t "web"; t "u@h"] in
  r = Ok tt /\ fs_lookup (fs w) (keyring_path demo_home) = Some (dumps (PDict [(t "web", PStr (t "u@h"))])).
Proof.
  apply (add_replaces_unparsable_keyring _ _ (t "db: x") (t "db: x"));
    [vm_compute; reflexivity | vm_compute; reflexivity | vm_compute; reflexivity | ok_str_tac | ok_str_tac].
Defined.

Lemma py_merge_right_biased_witness :
  exists m, py_merge (PDict [(t "x", PStr (t "0")); (t "y", PStr (t "2"))]) (PDict [(t "x", PStr (t "1"))])
            = Ok (PDict m) /\
    forall k, dict_get m k = match dict_get [(t "x", PStr (t "1"))] k with
                            | Some v => Some v
                            | None => dict_get [(t "x", PStr (t "0")); (t "y", PStr (t "2"))] k
                            end.
Proof. apply py_merge_right_biased; repeat constructor; vm_compute; intuition discriminate. Defined.
